(** * log-file-metric-exporter: pkg/logwatch

    A shallow embedding of [pkg/logwatch/watcher.go] and the properties of
    its byte accounting.

    - Paths are [string]s (sequences of bytes); [w.sizes] and the counter
      vector indexed by label values are finite maps ([gmap]).
    - The [float64] values of the package are file lengths and their
      differences, so they are integers and are kept in [Z]; the
      conversion [float64(stat.Size())] and the subtraction of two sizes
      round to 53 significant bits ([float64]), and are exact up to 2^53.
    - The operating system ([os.Stat], [ioutil.ReadDir]) is an oracle
      passed to [Update], one snapshot for each call; [filepath.Join] is a
      parameter of the development. The recursion of [Update] through
      directories is bounded by fuel.
    - [prometheus.Counter.Add] panics on a negative amount; the panic is
      part of the result type of [Update].
    - The two regular expressions are kept as syntax trees and run by a
      backtracking matcher with Go's leftmost-first preference. The
      matcher works on bytes; all literals and bracket expressions of the
      two patterns are ASCII, so that this agrees with matching on runes.
    - [Watch] consumes a script of the results of [Event()].
    - [New] starts from [New_state]; the registry of prometheus is one
      flag for the collector of the package, and [filepath.Walk] is
      modelled for the function that [New] passes to it. *)

From Stdlib Require Import ZArith String Ascii List Permutation.
From stdpp Require Import gmap strings list.

Open Scope string_scope.
Open Scope Z_scope.

(** ** Regular expressions (the fragment of Go's [regexp] the package uses) *)

Module Regexp.

(** A bracket expression such as [[a-z0-9-]]: inclusive character ranges. *)
Definition ranges := list (ascii * ascii).

Definition in_ranges (rs : ranges) (c : ascii) : bool :=
  existsb (fun r => (N_of_ascii (fst r) <=? N_of_ascii c)%N
                    && (N_of_ascii c <=? N_of_ascii (snd r))%N) rs.

(** Single-character matchers: a literal, a bracket expression, and [.],
    which without the [s] flag matches any character but a newline. *)
Inductive atom :=
| Lit (c : ascii)
| Cls (rs : ranges)
| Dot.

Definition newline : ascii := "010"%char.

Definition atom_ok (a : atom) (c : ascii) : bool :=
  match a with
  | Lit d => Ascii.eqb c d
  | Cls rs => in_ranges rs c
  | Dot => negb (Ascii.eqb c newline)
  end.

Inductive regex :=
| Eps
| One (a : atom)
| Plus (a : atom)            (* a+  greedy *)
| Star (a : atom)            (* a*  greedy *)
| Cat (r1 r2 : regex)
| Cap (n : nat) (r : regex)  (* the n-th parenthesised group *)
| EndText.                   (* $ without the m flag: end of text only *)

Definition seq (rs : list regex) : regex := foldr Cat Eps rs.
Definition lit (c : ascii) : regex := One (Lit c).

Fixpoint NumSubexp (r : regex) : nat :=
  match r with
  | Cat r1 r2 => Nat.max (NumSubexp r1) (NumSubexp r2)
  | Cap n r1 => Nat.max n (NumSubexp r1)
  | _ => 0%nat
  end.

(** The text consumed between the suffix [s] and its later suffix [s']. *)
Definition consumed (s s' : string) : string :=
  substring 0 (String.length s - String.length s') s.

(** Submatch slots, indexed by group number; slot 0 is the whole match.
    A group that took no part in the match reads as the empty string. *)
Definition caps := list string.

Section Matcher.
Context {R : Type}.

(** Greedy repetition: take one more character when possible, and fall
    back to stopping here only when the rest cannot be matched. *)
Fixpoint star (a : atom) (s : string) (cs : caps)
         (k : string → caps → option R) : option R :=
  match s with
  | String c s' =>
      if atom_ok a c then
        match star a s' cs k with
        | Some r => Some r
        | None => k s cs
        end
      else k s cs
  | EmptyString => k s cs
  end.

Fixpoint run (r : regex) (s : string) (cs : caps)
         (k : string → caps → option R) : option R :=
  match r with
  | Eps => k s cs
  | One a =>
      match s with
      | String c s' => if atom_ok a c then k s' cs else None
      | EmptyString => None
      end
  | Plus a =>
      match s with
      | String c s' => if atom_ok a c then star a s' cs k else None
      | EmptyString => None
      end
  | Star a => star a s cs k
  | Cat r1 r2 => run r1 s cs (fun s' cs' => run r2 s' cs' k)
  | Cap n r1 => run r1 s cs (fun s' cs' => k s' (<[n := consumed s s']> cs'))
  | EndText =>
      match s with
      | EmptyString => k s cs
      | String _ _ => None
      end
  end.
End Matcher.

(** A match that starts at the first character of [s]. *)
Definition match_here (re : regex) (s : string) : option (list string) :=
  run re s (replicate (S (NumSubexp re)) "")
      (fun s' cs => Some (<[0%nat := consumed s s']> cs)).

(** [Regexp.FindStringSubmatch]: the leftmost match, [None] for nil. *)
Fixpoint FindStringSubmatch (re : regex) (s : string) : option (list string) :=
  match match_here re s with
  | Some m => Some m
  | None =>
      match s with
      | String _ s' => FindStringSubmatch re s'
      | EmptyString => None
      end
  end.

End Regexp.

Import Regexp.

(** ** The package's two patterns *)

(** [[a-z0-9-]] *)
Definition name_chars : ranges :=
  [("a", "z"); ("0", "9"); ("-", "-")]%char.

(** [[a-f0-9-]] *)
Definition uuid_chars : ranges :=
  [("a", "f"); ("0", "9"); ("-", "-")]%char.

(** [/([a-z0-9-]+)_([a-z0-9-]+)_([a-f0-9-]+)/([a-z0-9-]+)/.*\.log] *)
Definition logFile : regex :=
  seq [ lit "/"; Cap 1 (Plus (Cls name_chars));
        lit "_"; Cap 2 (Plus (Cls name_chars));
        lit "_"; Cap 3 (Plus (Cls uuid_chars));
        lit "/"; Cap 4 (Plus (Cls name_chars));
        lit "/"; Star Dot; lit "."; lit "l"; lit "o"; lit "g" ].

(** [/([a-z0-9-]+)_([a-z0-9-]+)_([a-f0-9-]+)$] *)
Definition logPodDir : regex :=
  seq [ lit "/"; Cap 1 (Plus (Cls name_chars));
        lit "_"; Cap 2 (Plus (Cls name_chars));
        lit "_"; Cap 3 (Plus (Cls uuid_chars));
EndText ].

(** ** Labels *)

Record LogLabels := mkLabels {
  Namespace : string;
  Name : string;
  UUID : string;
  Container : string
}.

(** [LogLabels.Parse]: [Some l] is [ok = true] with the receiver set to
    [l]; [None] is [ok = false]. *)
Definition Parse (path : string) : option LogLabels :=
  match FindStringSubmatch logFile path with
  | Some m =>
      Some {| Namespace := nth 1 m ""; Name := nth 2 m "";
              UUID := nth 3 m ""; Container := nth 4 m "" |}
  | None => None
  end.

#[global] Instance LogLabels_eq_dec : EqDecision LogLabels.
Proof. solve_decision. Defined.

#[global] Instance LogLabels_countable : Countable LogLabels.
Proof.
  refine (inj_countable'
            (fun l => (Namespace l, Name l, UUID l, Container l))
            (fun t => match t with (a, b, c, d) => mkLabels a b c d end) _).
  by intros [].
Defined.

(** ** What the package imports *)

(** Go [error] values, as far as the package tells them apart: [io.EOF],
    errors for which [os.IsNotExist] holds, and all the others. *)
Inductive error :=
| EOF
| ErrNotExist
| ErrOther (msg : string).

Definition IsNotExist (e : error) : bool :=
  match e with ErrNotExist => true | _ => false end.

Definition is_EOF (e : error) : bool :=
  match e with EOF => true | _ => false end.

(** A Go [(value, err)] pair: [Val v] when [err == nil]. *)
Inductive outcome (A : Type) :=
| Val (a : A)
| Err (e : error).
Arguments Val {A} a.
Arguments Err {A} e.

(** [os.FileInfo], with the two methods the package calls. *)
Record FileInfo := mkFileInfo {
  fi_Name : string;
  fi_Size : Z        (* int64 *)
}.

(** The file system as one call sees it: [os.Stat] and [ioutil.ReadDir]. *)
Record FS := mkFS {
  Stat : string → outcome FileInfo;
  ReadDir : string → outcome (list FileInfo)
}.

(** Results of the modelled procedures. [Panic] is a Go panic, raised by
    [prometheus.Counter.Add] on a negative argument; [OutOfFuel] is the
    model's bound on the depth of the directory recursion. *)
Inductive exec (A : Type) :=
| Done (a : A)
| Panic (msg : string)
| OutOfFuel.
Arguments Done {A} a.
Arguments Panic {A} msg.
Arguments OutOfFuel {A}.

Definition bind {A B} (x : exec A) (f : A → exec B) : exec B :=
  match x with
  | Done a => f a
  | Panic msg => Panic msg
  | OutOfFuel => OutOfFuel
  end.

Notation "x ←! e1 ; e2" := (bind e1 (fun x => e2))
  (at level 20, e1 at level 100, e2 at level 200, right associativity).

(** [for _, a := range l { f(a) }] over a state. *)
Fixpoint for_each {A S} (f : A → S → exec S) (l : list A) (s : S) : exec S :=
  match l with
  | [] => Done s
  | a :: l' => s' ←! f a s; for_each f l' s'
  end.

(** [prometheus.CounterVec] with labels namespace, podname, poduuid and
    containername: one counter per label combination. *)
Abbreviation CounterVec := (gmap LogLabels Z).

(** [GetMetricWithLabelValues]: the series is created at 0 when absent. The
    call fails only on a wrong number of label values, so never here. *)
Definition GetMetricWithLabelValues (l : LogLabels) (m : CounterVec) : CounterVec :=
  match m !! l with
  | Some _ => m
  | None => <[l := 0]> m
  end.

(** [Counter.Add] on the series of [l]: panics on a negative amount. *)
Definition counter_Add (l : LogLabels) (v : Z) (m : CounterVec) : exec CounterVec :=
  if v <? 0 then Panic "counter cannot decrease in value"
  else Done (alter (fun x => x + v) l m).

(** [DeleteLabelValues]: the series is dropped. *)
Definition DeleteLabelValues (l : LogLabels) (m : CounterVec) : CounterVec :=
  delete l m.

(** Calls to the logger. *)
Inductive LogEntry :=
| LogError (err : error) (msg : string) (path : string)
| LogInfo (level : nat) (msg : string) (path : string) (size : Z).

(** ** The watcher *)

(** [Watcher.metrics] and [Watcher.sizes]; [logged] is the output of the
    process-wide logger, kept with the state so that the deferred call in
    [Update] can be observed. The [watcher] field is the source of the
    events that [Watch] consumes. *)
Record Watcher := mkWatcher {
  metrics : CounterVec;
  sizes : gmap string Z;
  logged : list LogEntry
}.

Definition New_state : Watcher := mkWatcher ∅ ∅ [].

Definition log_append (e : LogEntry) (w : Watcher) : Watcher :=
  mkWatcher (metrics w) (sizes w) (logged w ++ [e]).

(** ** Sizes as [float64] *)

(** The conversion of an integer to [float64]: the nearest number with a
    significand of 53 bits, a tie going to the even significand. The
    result is an integer again. [2 ^ e] is the distance between
    neighbouring numbers at the magnitude of [n]; the magnitudes that occur
    (lengths of type int64 and their differences) are far from overflow. *)
Definition float64 (n : Z) : Z :=
  let a := Z.abs n in
  let e := Z.log2 a - 52 in
  if e <=? 0 then n
  else
    let ulp := 2 ^ e in
    let q := a / ulp in
    let r := a mod ulp in
    let q' := if 2 * r <? ulp then q
              else if ulp <? 2 * r then q + 1
              else if Z.even q then q else q + 1 in
    Z.sgn n * (q' * ulp).
Arguments float64 : simpl never.

(** The subtraction of two [float64] values that are integers: the exact
    difference, rounded. *)
Definition float64_sub (a b : Z) : Z := float64 (a - b).

(** The amount credited for a file seen at [lastSize] and now at [size],
    both [float64]. *)
Definition credit (lastSize size : Z) : Z :=
  if lastSize <=? size then float64_sub size lastSize   (* static or grown *)
  else size.                                  (* truncated: like a new file *)

Section Logwatch.

(** [filepath.Join] on a directory and an entry name. *)
Variable Join : string → string → string.

(** [Watcher.Update]. The deferred function logs [err] unless it is nil
    or a does-not-exist error; only [os.Stat] assigns that [err], the
    other two errors are declared in inner scopes. *)
Fixpoint Update (fuel : nat) (fs : FS) (path : string) (w : Watcher)
  : exec Watcher :=
  match fuel with
  | O => OutOfFuel
  | S fuel' =>
      match Parse path with
      | Some l =>
          match Stat fs path with
          | Err err =>
              Done (if IsNotExist err then w
                    else log_append (LogError err "updating metric" path) w)
          | Val stat =>
              let metrics1 := GetMetricWithLabelValues l (metrics w) in
              let lastSize := default 0 (sizes w !! path) in
              let size := float64 (fi_Size stat) in
              let sizes1 := <[path := size]> (sizes w) in
              metrics2 ←! counter_Add l (credit lastSize size) metrics1;
              Done (mkWatcher metrics2 sizes1
                      (logged w ++ [LogInfo 3 "updated metric" path size]))
          end
      | None =>
          match ReadDir fs path with
          | Val infos =>
              for_each (fun info => Update fuel' fs (Join path (fi_Name info)))
                       infos w
          | Err _ => Done w
          end
      end
  end.

(** The body of the loop in [Watcher.Remove] for one key [k]. *)
Definition Remove_key (path k : string) (w : Watcher) : Watcher :=
  if String.prefix path k then
    let sizes1 := delete k (sizes w) in
    match Parse k with
    | Some l => mkWatcher (DeleteLabelValues l (metrics w)) sizes1 (logged w)
    | None => mkWatcher (metrics w) sizes1 (logged w)
    end
  else w.

(** The loop of [Watcher.Remove] when it visits the keys in the order
    [keys]. Deleting the key that is being visited does not disturb a Go
    map range: every key is visited once. *)
Definition Remove_loop (path : string) (keys : list string) (w : Watcher)
  : Watcher :=
  foldl (fun w k => Remove_key path k w) w keys.

(** [Watcher.Remove] when the keys of [w.sizes] are ranged over in the
    order [keys]; Go leaves the order of a map range unspecified. *)
Definition Remove_in_order (keys : list string) (path : string) (w : Watcher)
  : Watcher :=
  match FindStringSubmatch logPodDir path with
  | Some _ => Remove_loop path keys w
  | None => w
  end.

Definition keys_of (w : Watcher) : list string := (map_to_list (sizes w)).*1.

Definition Remove (path : string) (w : Watcher) : Watcher :=
  Remove_in_order (keys_of w) path w.

End Logwatch.

(** ** Events *)

(** [fsnotify.Event] and the [fsnotify.Op] bits. *)
Module fsnotify.
Record Event := mkEvent {
  Name : string;
  Op : Z           (* uint32 bit mask *)
}.
Definition Create : Z := Z.shiftl 1 0.
Definition Write : Z := Z.shiftl 1 1.
Definition Remove : Z := Z.shiftl 1 2.
Definition Rename : Z := Z.shiftl 1 3.
Definition Chmod : Z := Z.shiftl 1 4.
End fsnotify.

(** How a call of [Watch] ends: it returns an error value ([None] is nil),
    or it is still blocked in [Event()] when the script of events ends. *)
Inductive WatchEnd :=
| Returned (err : option error)
| Blocked.

Section Watch.

Variable Join : string → string → string.

(** [Watcher.Watch]. The script lists what each call of
    [w.watcher.Event()] returns, with the file system as it is while
    that event is handled; [fuel] bounds each call of [Update]. *)
Fixpoint Watch (fuel : nat) (script : list (FS * outcome fsnotify.Event))
         (w : Watcher) : exec (WatchEnd * Watcher) :=
  match script with
  | [] => Done (Blocked, w)
  | (fs, r) :: script' =>
      match r with
      | Err err =>
          if is_EOF err then Done (Returned None, w)
          else Done (Returned (Some err), w)
      | Val e =>
          if fsnotify.Op e =? fsnotify.Remove then
            Watch fuel script' (Remove (fsnotify.Name e) w)
          else
            w' ←! Update Join fuel fs (fsnotify.Name e) w;
            Watch fuel script' w'
      end
  end.

(** A sequence of [Update] calls, each on the file system of its time. *)
Definition Updates (fuel : nat) (calls : list (FS * string)) (w : Watcher)
  : exec Watcher :=
  for_each (fun c => Update Join fuel c.1 c.2) calls w.

(** [Update path] returns, leaving the watcher as [w']. *)
Definition Update_returns (fs : FS) (path : string) (w w' : Watcher) : Prop :=
  ∃ fuel, Update Join fuel fs path w = Done w'.

(** [Update] is applied to the entries [infos] of [path], one after the
    other, and each of the calls returns. *)
Inductive Update_children (fs : FS) (path : string)
  : list FileInfo → Watcher → Watcher → Prop :=
| children_nil w : Update_children fs path [] w w
| children_cons info infos w w1 w2 :
    Update_returns fs (Join path (fi_Name info)) w w1 →
    Update_children fs path infos w1 w2 →
    Update_children fs path (info :: infos) w w2.

(** [d] bounds the depth of the directory tree that [Update] scans
    below [path]. *)
Inductive scan_depth (fs : FS) : nat → string → Prop :=
| scan_file d path l :
    Parse path = Some l → scan_depth fs d path
| scan_other d path e :
    Parse path = None → ReadDir fs path = Err e → scan_depth fs d path
| scan_dir d path infos :
    Parse path = None → ReadDir fs path = Val infos →
    (∀ info, info ∈ infos → scan_depth fs d (Join path (fi_Name info))) →
    scan_depth fs (S d) path.

End Watch.

(** File lengths are not negative. *)
Definition sizes_nonneg (fs : FS) : Prop :=
  ∀ path info, Stat fs path = Val info → 0 ≤ fi_Size info.

(** File lengths are not negative and at most 2^53: [float64] holds them
    exactly. *)
Definition sizes_exact (fs : FS) : Prop :=
  ∀ path info, Stat fs path = Val info → 0 ≤ fi_Size info ≤ 2 ^ 53.

(** Every series of [w] is still there in [w'], with a value that is not
    smaller. *)
Definition counters_le (w w' : Watcher) : Prop :=
  ∀ l v, metrics w !! l = Some v → ∃ v', metrics w' !! l = Some v' ∧ v ≤ v'.

(** The script holds events only, no error. *)
Definition all_events (script : list (FS * outcome fsnotify.Event)) : Prop :=
  Forall (fun t => ∃ e, t.2 = Val e) script.

(** ** Vocabulary of the statements *)

(** Every character of [s] lies in the bracket expression [rs]. *)
Fixpoint all_in (rs : ranges) (s : string) : bool :=
  match s with
  | EmptyString => true
  | String c s' => in_ranges rs c && all_in rs s'
  end.

(** A non-empty run of characters of [rs]: what [[rs]+] matches. *)
Definition segment (rs : ranges) (s : string) : Prop :=
  s ≠ "" ∧ all_in rs s = true.

(** [c] does not occur in [s]. *)
Fixpoint no_char (c : ascii) (s : string) : bool :=
  match s with
  | EmptyString => true
  | String c' s' => negb (Ascii.eqb c' c) && no_char c s'
  end.

(** The longest prefix of [s] in [rs], and what follows it. *)
Fixpoint span (rs : ranges) (s : string) : string * string :=
  match s with
  | String c s' =>
      if in_ranges rs c then (String c (span rs s').1, (span rs s').2)
      else ("", s)
  | EmptyString => ("", "")
  end.

(** [strings.CutPrefix]: [s] without its prefix [p], if it has it. *)
Fixpoint strip_prefix (p s : string) : option string :=
  match p with
  | EmptyString => Some s
  | String c p' =>
      match s with
      | String c' s' => if Ascii.eqb c' c then strip_prefix p' s' else None
      | EmptyString => None
      end
  end.

(** What is left of [s] after the last [.log] of its first line, if the
    first line has one: where the greedy [.*\.log] stops. *)
Fixpoint after_log (s : string) : option string :=
  match s with
  | String c s' =>
      if Ascii.eqb c newline then None
      else match after_log s' with
           | Some r => Some r
           | None => strip_prefix ".log" s
           end
  | EmptyString => None
  end.

Definition labels_ok (l : LogLabels) : Prop :=
  segment name_chars (Namespace l) ∧ segment name_chars (Name l) ∧
  segment uuid_chars (UUID l) ∧ segment name_chars (Container l).

(** [/<ns>_<pod>_<uuid>/<container>/] followed by [rest]. *)
Definition log_path (l : LogLabels) (rest : string) : string :=
  "/" +:+ Namespace l +:+ "_" +:+ Name l +:+ "_" +:+ UUID l +:+
  "/" +:+ Container l +:+ "/" +:+ rest.

(** [s] starts with the directories of container [l], followed on the
    same line by [.log]. *)
Definition log_file_here (l : LogLabels) (s : string) : Prop :=
  labels_ok l ∧
  ∃ mid post, no_char newline mid = true ∧
              s = log_path l (mid +:+ ".log" +:+ post).

(** The last character of [s]. *)
Fixpoint last_char (s : string) : option ascii :=
  match s with
  | EmptyString => None
  | String c EmptyString => Some c
  | String _ s' => last_char s'
  end.

(** [/<ns>_<pod>_<uuid>] *)
Definition pod_dir_path (ns pod uuid : string) : string :=
  "/" +:+ ns +:+ "_" +:+ pod +:+ "_" +:+ uuid.

(** ** A concrete file system for examples *)

(** What [filepath.Join] returns for a clean directory path that is not
    the root and the name of one of its entries. *)
Definition join_slash (dir name : string) : string := dir +:+ "/" +:+ name.

Definition assoc {A} (k : string) (l : list (string * A)) : option A :=
  snd <$> List.find (fun kv => String.eqb kv.1 k) l.

(** Regular files with their lengths, and directories with the names of
    their entries. *)
Definition fs_of (files : list (string * Z)) (dirs : list (string * list string))
  : FS :=
  mkFS
    (fun p =>
       match assoc p files, assoc p dirs with
       | Some n, _ => Val (mkFileInfo p n)
       | None, Some _ => Val (mkFileInfo p 4096)
       | None, None => Err ErrNotExist
       end)
    (fun p =>
       match assoc p dirs, assoc p files with
       | Some names, _ => Val ((fun n => mkFileInfo n 0) <$> names)
       | None, Some _ => Err (ErrOther "not a directory")
       | None, None => Err ErrNotExist
       end).

(** A file system on which every call fails with [err]. *)
Definition fs_failing (err : error) : FS :=
  mkFS (fun _ => Err err) (fun _ => Err err).

(** One container with one log file, as the tests of the package lay
    it out below their root directory. *)
Definition pods : string := "/var/log/pods".
Definition pod_dir : string := "/var/log/pods/ns_pod_0a1b".
Definition log0 : string := "/var/log/pods/ns_pod_0a1b/c/0.log".
Definition log0_labels : LogLabels := mkLabels "ns" "pod" "0a1b" "c".

Definition tree : list (string * list string) :=
  [ (pods, ["ns_pod_0a1b"]);
    (pod_dir, ["c"]);
    ("/var/log/pods/ns_pod_0a1b/c", ["0.log"]) ].

(** [0.log] holds ["hello\n"]; later it is truncated and holds two bytes. *)
Definition fs_hello : FS := fs_of [(log0, 6)] tree.
Definition fs_truncated : FS := fs_of [(log0, 2)] tree.

(** [0.log] with one byte more than a [float64] holds exactly, and with
    two bytes more. *)
Definition fs_huge : FS := fs_of [(log0, 2 ^ 53 + 1)] tree.
Definition fs_huge_grown : FS := fs_of [(log0, 2 ^ 53 + 2)] tree.

(** The watcher after [0.log] was seen with one byte. *)
Definition w_one : Watcher :=
  mkWatcher {[ log0_labels := 1 ]} {[ log0 := 1 ]} [].

(** The watcher after [0.log] was seen with six bytes. *)
Definition w_hello : Watcher :=
  mkWatcher {[ log0_labels := 6 ]} {[ log0 := 6 ]} [].

(** A watcher that also follows a log file of the pod [ns_pod_0a1bcd],
    whose directory name extends that of [ns_pod_0a1b]. *)
Definition sibling_log : string := "/var/log/pods/ns_pod_0a1bcd/c/0.log".
Definition w_siblings : Watcher :=
  mkWatcher {[ log0_labels := 6; mkLabels "ns" "pod" "0a1bcd" "c" := 8 ]}
            {[ log0 := 6; sibling_log := 8 ]} [].

(** Two pods, [a_b_c] with container [d] and [e_f_0] with container [g]. *)
Definition labels_abcd : LogLabels := mkLabels "a" "b" "c" "d".
Definition labels_ef0g : LogLabels := mkLabels "e" "f" "0" "g".

(** ** The constructor *)


Section Construction.

Variable Join : string → string → string.




(** The log files whose size a call of [Update] asks for. *)
Fixpoint visited (fuel : nat) (fs : FS) (path : string) : list string :=
  match fuel with
  | O => []
  | S fuel' =>
      match Parse path with
      | Some _ => [path]
      | None =>
          match ReadDir fs path with
          | Val infos =>
              concat ((fun info => visited fuel' fs (Join path (fi_Name info)))
                        <$> infos)
          | Err _ => []
          end
      end
  end.

End Construction.


(** ** Vocabulary of the statements about whole runs *)

(** The sum of the stored sizes of the paths with labels [l]. *)
Definition stored_bytes (l : LogLabels) (m : gmap string Z) : Z :=
  map_fold (fun k v acc => if decide (Parse k = Some l) then v + acc else acc)
           0 m.

(** Every key of the size table is a path that label extraction accepts,
    and no stored size is negative. *)
Definition sizes_parse (w : Watcher) : Prop :=
  ∀ k v, sizes w !! k = Some v → is_Some (Parse k) ∧ 0 ≤ v.

(** No counter is below the stored sizes of its paths. *)
Definition counters_cover (w : Watcher) : Prop :=
  ∀ l, stored_bytes l (sizes w) ≤ default 0 (metrics w !! l).


(** The watcher has seen the log file [path] with the length that it has
    on [fs], as a [float64]. *)
Definition synced (fs : FS) (w : Watcher) (path : string) : Prop :=
  ∀ l info, Parse path = Some l → Stat fs path = Val info →
    sizes w !! path = Some (float64 (fi_Size info))
    ∧ is_Some (metrics w !! l).

(** [Remove p] deletes the entry of the key [k]: [p] matches the pattern
    of a pod directory and is a prefix of [k]. *)
Definition cleans (p k : string) : bool :=
  match FindStringSubmatch logPodDir p with
  | Some _ => String.prefix p k
  | None => false
  end.

(** Every log file that [w] holds with its length, [w'] holds as well. *)
Definition keeps_synced (fs : FS) (w w' : Watcher) : Prop :=
  ∀ q, synced fs w q → synced fs w' q.


(** * Properties *)

(** ** Strings *)

Lemma append_cons c (a b : string) : String c a +:+ b = String c (a +:+ b).
Proof. reflexivity. Qed.

Lemma append_nil_l (b : string) : "" +:+ b = b.
Proof. reflexivity. Qed.

(** Push the characters of a literal prefix out of an append. *)
Ltac sapp := rewrite ?append_cons, ?append_nil_l.
Ltac sapp_in H := rewrite ?append_cons, ?append_nil_l in H.

Lemma append_assoc (a b c : string) : (a +:+ b) +:+ c = a +:+ (b +:+ c).
Proof. induction a as [|x a IH]; sapp; [done | by rewrite IH]. Qed.

(** Right-nested appends with the literal characters pushed out. *)
Ltac snorm :=
  repeat first [rewrite append_assoc | rewrite append_cons
               | rewrite append_nil_l].

Lemma append_nil_r (a : string) : a +:+ "" = a.
Proof. induction a as [|x a IH]; sapp; [done | by rewrite IH]. Qed.

Lemma length_append (a b : string) :
  String.length (a +:+ b) = (String.length a + String.length b)%nat.
Proof. induction a as [|x a IH]; sapp; simpl; [done | by rewrite IH]. Qed.

Lemma substring_append (a b : string) :
  substring 0 (String.length a) (a +:+ b) = a.
Proof.
  induction a as [|x a IH]; sapp; simpl.
  - by destruct b.
  - by rewrite IH.
Qed.

Lemma consumed_append (a b : string) : consumed (a +:+ b) b = a.
Proof.
  unfold consumed. rewrite length_append.
  replace (String.length a + String.length b - String.length b)%nat
    with (String.length a) by lia.
  apply substring_append.
Qed.

Lemma prefix_append (p k : string) :
  String.prefix p k = true ↔ ∃ t, k = p +:+ t.
Proof.
  revert k. induction p as [|x p IH]; intros [|y k]; simpl.
  - split; eauto.
  - split; eauto.
  - split; [done | by intros [t ?]].
  - destruct (ascii_dec x y) as [->|Hne].
    + rewrite IH. split; intros [t Ht]; exists t; sapp_in Ht; sapp; congruence.
    + split; [done | intros [t Ht]; sapp_in Ht; congruence].
Qed.

Lemma all_in_append rs a b :
  all_in rs (a +:+ b) = all_in rs a && all_in rs b.
Proof.
  induction a as [|x a IH]; sapp; simpl; [done |].
  by rewrite IH, andb_assoc.
Qed.

Lemma no_char_append c a b :
  no_char c (a +:+ b) = no_char c a && no_char c b.
Proof.
  induction a as [|x a IH]; sapp; simpl; [done |].
  by rewrite IH, andb_assoc.
Qed.

(** [c] is outside [rs], so a run of [rs] has no [c]. *)
Lemma all_in_no_char rs c s :
  in_ranges rs c = false → all_in rs s = true → no_char c s = true.
Proof.
  intros Hc. induction s as [|x s IH]; simpl; [done |].
  intros [Hx Hs]%andb_true_iff. rewrite IH by done.
  destruct (Ascii.eqb_spec x c) as [->|]; [congruence | done].
Qed.

(** ** The span of a bracket expression *)

Lemma span_append rs s : (span rs s).1 +:+ (span rs s).2 = s.
Proof.
  induction s as [|c s IH]; simpl; [done |].
  destruct (in_ranges rs c); simpl; sapp; [by rewrite IH | done].
Qed.

Lemma span_all_in rs s : all_in rs (span rs s).1 = true.
Proof.
  induction s as [|c s IH]; simpl; [done |].
  destruct (in_ranges rs c) eqn:E; simpl; [by rewrite E | done].
Qed.

(** A run of [rs] followed by a character outside [rs] is the span. *)
Lemma span_segment rs a d b :
  all_in rs a = true → in_ranges rs d = false →
  span rs (a +:+ String d b) = (a, String d b).
Proof.
  intros Ha Hd. induction a as [|c a IH]; sapp; simpl in *.
  - by rewrite Hd.
  - apply andb_true_iff in Ha as [Hc Ha]. rewrite Hc, IH by done. done.
Qed.

Lemma span_all rs a : all_in rs a = true → span rs a = (a, "").
Proof.
  induction a as [|c a IH]; simpl; [done |].
  intros [Hc Ha]%andb_true_iff. by rewrite Hc, IH.
Qed.

Lemma span_rest_head rs s c r :
  (span rs s).2 = String c r → in_ranges rs c = false.
Proof.
  induction s as [|x s IH]; simpl; [done |].
  destruct (in_ranges rs x) eqn:E; simpl; [done |].
  intros [= -> ->]. done.
Qed.

(** ** The matcher *)

Section MatcherLemmas.
Context {R : Type}.
Implicit Types (k : string → caps → option R) (cs : caps).

Lemma run_cat r1 r2 s cs k :
  run (Cat r1 r2) s cs k = run r1 s cs (fun s' cs' => run r2 s' cs' k).
Proof. reflexivity. Qed.

Lemma run_lit_cons d c s cs k :
  run (lit d) (String c s) cs k = if Ascii.eqb c d then k s cs else None.
Proof. reflexivity. Qed.

Lemma run_lit_ne rs d r c s cs k :
  in_ranges rs d = false → in_ranges rs c = true →
  run (Cat (lit d) r) (String c s) cs k = None.
Proof.
  intros Hd Hc. rewrite run_cat, run_lit_cons.
  destruct (Ascii.eqb_spec c d) as [->|]; [congruence | done].
Qed.

(** A greedy run of [rs] whose continuation does not accept a
    character of [rs] stops exactly at the end of the span. *)
Lemma star_cls rs s cs k :
  (∀ c s', in_ranges rs c = true → k (String c s') cs = None) →
  star (Cls rs) s cs k = k (span rs s).2 cs.
Proof.
  intros Hk. induction s as [|c s IH]; simpl; [done |].
  destruct (in_ranges rs c) eqn:E; simpl; [| done].
  rewrite IH. destruct (k (span rs s).2 cs); [done |]. by apply Hk.
Qed.

Lemma run_cap_plus n rs s cs k :
  (∀ c s' cs', in_ranges rs c = true → k (String c s') cs' = None) →
  run (Cap n (Plus (Cls rs))) s cs k =
    match (span rs s).1 with
    | EmptyString => None
    | seg => k (span rs s).2 (<[n := seg]> cs)
    end.
Proof.
  intros Hk. destruct s as [|c s]; simpl; [done |].
  destruct (in_ranges rs c) eqn:E; simpl; [| done].
  rewrite star_cls by (intros; apply Hk; done).
  f_equal. f_equal.
  rewrite <- (span_append rs s) at 1.
  apply (consumed_append (String c (span rs s).1)).
Qed.

(** [([rs]+)d] with [d] outside [rs]. *)
Lemma run_segment_lit n rs d r s cs k :
  in_ranges rs d = false →
  run (Cat (Cap n (Plus (Cls rs))) (Cat (lit d) r)) s cs k =
    match span rs s with
    | (String c seg, String d' s2) =>
        if Ascii.eqb d' d then run r s2 (<[n := String c seg]> cs) k
        else None
    | _ => None
    end.
Proof.
  intros Hd. rewrite run_cat, run_cap_plus
    by (intros; by apply (run_lit_ne rs)).
  destruct (span rs s) as [[|c seg] [|d' s2]]; simpl; try done.
Qed.

(** [([rs]+)$] *)
Lemma run_segment_end n rs s cs k :
  run (Cat (Cap n (Plus (Cls rs))) (Cat EndText Eps)) s cs k =
    match span rs s with
    | (String c seg, EmptyString) => k "" (<[n := String c seg]> cs)
    | _ => None
    end.
Proof.
  rewrite run_cat, run_cap_plus by done.
  destruct (span rs s) as [[|c seg] [|d' s2]]; simpl; try done.
Qed.
End MatcherLemmas.

Lemma strip_prefix_Some p s r : strip_prefix p s = Some r ↔ s = p +:+ r.
Proof.
  revert s. induction p as [|c p IH]; intros s; simpl; sapp.
  - split; congruence.
  - destruct s as [|c' s]; [done |].
    destruct (Ascii.eqb_spec c' c) as [->|].
    + rewrite IH. split; congruence.
    + split; [done | congruence].
Qed.

(** [\.log] at the end of the pattern, with the final continuation. *)
Lemma run_dot_log s0 s cs :
  run (seq [lit "."; lit "l"; lit "o"; lit "g"]) s cs
      (fun s' cs' => Some (<[0%nat := consumed s0 s']> cs'))
  = (fun r => <[0%nat := consumed s0 r]> cs) <$> strip_prefix ".log" s.
Proof.
  simpl.
  repeat (destruct s as [|? s]; [done |]; destruct (Ascii.eqb _ _); [| done]).
  done.
Qed.

(** [.*\.log] at the end of the pattern. *)
Lemma run_any_log s0 s cs :
  run (seq [Star Dot; lit "."; lit "l"; lit "o"; lit "g"]) s cs
      (fun s' cs' => Some (<[0%nat := consumed s0 s']> cs'))
  = (fun r => <[0%nat := consumed s0 r]> cs) <$> after_log s.
Proof.
  change (seq [Star Dot; lit "."; lit "l"; lit "o"; lit "g"])
    with (Cat (Star Dot) (seq [lit "."; lit "l"; lit "o"; lit "g"])).
  rewrite run_cat. cbn [run].
  induction s as [|c s IH].
  - done.
  - cbn [star after_log atom_ok].
    destruct (Ascii.eqb_spec c newline) as [->|]; cbn [negb].
    + by rewrite run_dot_log.
    + rewrite IH. destruct (after_log s); [done |]. apply run_dot_log.
Qed.

Section MatcherSome.
Context {R : Type}.
Implicit Types (k : string → caps → option R) (cs : caps) (x : R).

Lemma run_lit_Some d r s cs k x :
  run (Cat (lit d) r) s cs k = Some x ↔
  ∃ s', s = String d s' ∧ run r s' cs k = Some x.
Proof.
  rewrite run_cat. destruct s as [|c s].
  - split; [done | by intros (? & ? & ?)].
  - rewrite run_lit_cons. destruct (Ascii.eqb_spec c d) as [->|Hne].
    + split; [eauto | by intros (? & [= <-] & ?)].
    + split; [done | intros (? & [= ? ?] & ?); congruence].
Qed.

Lemma span_segment_inv rs s c seg d s2 :
  span rs s = (String c seg, String d s2) →
  segment rs (String c seg) ∧ s = String c seg +:+ String d s2 ∧
  in_ranges rs d = false.
Proof.
  intros E. split_and!.
  - split; [done |]. by rewrite <- (span_all_in rs s), E.
  - by rewrite <- (span_append rs s), E.
  - apply (span_rest_head rs s d s2). by rewrite E.
Qed.

Lemma run_segment_lit_Some n rs d r s cs k x :
  in_ranges rs d = false →
  run (Cat (Cap n (Plus (Cls rs))) (Cat (lit d) r)) s cs k = Some x ↔
  ∃ seg s2, segment rs seg ∧ s = seg +:+ String d s2 ∧
            run r s2 (<[n := seg]> cs) k = Some x.
Proof.
  intros Hd. rewrite run_segment_lit by done. split.
  - destruct (span rs s) as [[|c seg] [|d' s2]] eqn:E; try done.
    destruct (Ascii.eqb_spec d' d) as [->|]; [| done].
    apply span_segment_inv in E as (? & ? & ?). eauto.
  - intros (seg & s2 & [Hne Hseg] & -> & Hrun).
    rewrite span_segment by done.
    destruct seg; [done |]. by rewrite Ascii.eqb_refl.
Qed.

Lemma run_segment_end_Some n rs s cs k x :
  run (Cat (Cap n (Plus (Cls rs))) (Cat EndText Eps)) s cs k = Some x ↔
  segment rs s ∧ k "" (<[n := s]> cs) = Some x.
Proof.
  rewrite run_segment_end. split.
  - destruct (span rs s) as [[|c seg] [|d' s2]] eqn:E; try done.
    intros Hk.
    assert (s = String c seg) as ->.
    { by rewrite <- (span_append rs s), E, append_nil_r. }
    split; [| done]. split; [done |].
    by rewrite <- (span_all_in rs (String c seg)), E.
  - intros [[Hne Hseg] Hk]. rewrite span_all by done.
    by destruct s.
Qed.
End MatcherSome.

Lemma run_any_log_Some s0 s cs m :
  run (seq [Star Dot; lit "."; lit "l"; lit "o"; lit "g"]) s cs
      (fun s' cs' => Some (<[0%nat := consumed s0 s']> cs')) = Some m ↔
  ∃ r, after_log s = Some r ∧ m = <[0%nat := consumed s0 r]> cs.
Proof.
  rewrite run_any_log. destruct (after_log s) as [r|]; simpl.
  - split; [intros [= <-]; eauto | by intros (? & [= <-] & ->)].
  - split; [done | by intros (? & ? & ?)].
Qed.

Lemma in_name_chars_underscore : in_ranges name_chars "_" = false.
Proof. reflexivity. Qed.

Lemma in_name_chars_slash : in_ranges name_chars "/" = false.
Proof. reflexivity. Qed.

Lemma in_uuid_chars_slash : in_ranges uuid_chars "/" = false.
Proof. reflexivity. Qed.

Lemma in_uuid_chars_underscore : in_ranges uuid_chars "_" = false.
Proof. reflexivity. Qed.

(** ** What the two patterns match at the start of a string *)

Lemma match_here_logFile s m :
  match_here logFile s = Some m ↔
  ∃ l mid r, labels_ok l ∧ s = log_path l mid ∧ after_log mid = Some r ∧
    m = [consumed s r; Namespace l; Name l; UUID l; Container l].
Proof.
  unfold match_here, logFile. cbn [seq foldr].
  rewrite run_lit_Some. split.
  - intros (s1 & -> & H).
    apply run_segment_lit_Some in H as (ns & s2 & Hns & -> & H); [| done].
    apply run_segment_lit_Some in H as (pod & s3 & Hpod & -> & H); [| done].
    apply run_segment_lit_Some in H as (uuid & s4 & Huuid & -> & H); [| done].
    apply run_segment_lit_Some in H as (c & s5 & Hc & -> & H); [| done].
    apply run_any_log_Some in H as (r & Hr & ->).
    exists (mkLabels ns pod uuid c), s5, r. done.
  - intros ([ns pod uuid c] & mid & r & (Hns & Hpod & Huuid & Hc) & -> & Hr & ->).
    unfold log_path. cbn [Namespace Name UUID Container] in *. sapp.
    eexists; split; [done |].
    apply run_segment_lit_Some; [done |]. exists ns; eexists. split_and!; [done..|].
    apply run_segment_lit_Some; [done |]. exists pod; eexists. split_and!; [done..|].
    apply run_segment_lit_Some; [done |]. exists uuid; eexists. split_and!; [done..|].
    apply run_segment_lit_Some; [done |]. exists c; eexists. split_and!; [done..|].
    apply run_any_log_Some. exists r. done.
Qed.

Lemma match_here_logPodDir s :
  is_Some (match_here logPodDir s) ↔
  ∃ ns pod uuid, segment name_chars ns ∧ segment name_chars pod ∧
    segment uuid_chars uuid ∧ s = pod_dir_path ns pod uuid.
Proof.
  unfold match_here, logPodDir, is_Some. cbn [seq foldr]. split.
  - intros (m & H).
    apply run_lit_Some in H as (s1 & -> & H).
    apply run_segment_lit_Some in H as (ns & s2 & Hns & -> & H); [| done].
    apply run_segment_lit_Some in H as (pod & s3 & Hpod & -> & H); [| done].
    apply run_segment_end_Some in H as (Huuid & _).
    exists ns, pod, s3. done.
  - intros (ns & pod & uuid & Hns & Hpod & Huuid & ->).
    unfold pod_dir_path. sapp. eexists.
    apply run_lit_Some. eexists; split; [done |].
    apply run_segment_lit_Some; [done |]. exists ns; eexists. split_and!; [done..|].
    apply run_segment_lit_Some; [done |]. exists pod; eexists. split_and!; [done..|].
    apply run_segment_end_Some. split; [done |]. reflexivity.
Qed.

(** ** [.log] on the first line *)

Lemma after_log_Some s r :
  after_log s = Some r →
  ∃ mid, no_char newline mid = true ∧ s = mid +:+ ".log" +:+ r.
Proof.
  induction s as [|c s IH]; simpl; [done |].
  destruct (Ascii.eqb_spec c newline) as [->|Hc]; [done |].
  destruct (after_log s) as [r'|] eqn:E.
  - intros [= ->]. destruct IH as (mid & Hmid & ->); [done |].
    exists (String c mid). simpl. rewrite Hmid.
    by destruct (Ascii.eqb_spec c newline).
  - intros H. exists "". split; [done |].
    by apply (strip_prefix_Some ".log" (String c s) r).
Qed.

Lemma after_log_is_Some mid post :
  no_char newline mid = true → is_Some (after_log (mid +:+ ".log" +:+ post)).
Proof.
  induction mid as [|c mid IH].
  - intros _. sapp. cbn [after_log]. change (Ascii.eqb "." newline) with false.
    cbv iota. destruct (after_log _); [eauto |].
    exists post. apply strip_prefix_Some. by sapp.
  - rewrite append_cons. simpl. intros [Hc Hmid]%andb_true_iff.
    apply negb_true_iff in Hc. rewrite Hc.
    destruct IH as [r Hr]; [done |]. rewrite Hr. eauto.
Qed.

(** Text without a newline in front keeps a [.log] on the first line. *)
Lemma after_log_extend a s :
  no_char newline a = true → is_Some (after_log s) →
  is_Some (after_log (a +:+ s)).
Proof.
  intros Ha [r Hr]. apply after_log_Some in Hr as (mid & Hmid & ->).
  rewrite <- append_assoc. apply after_log_is_Some.
  by rewrite no_char_append, Ha, Hmid.
Qed.

(** ** The leftmost match *)

Lemma FindStringSubmatch_Some re s m :
  FindStringSubmatch re s = Some m ↔
  ∃ pre suf, s = pre +:+ suf ∧ match_here re suf = Some m ∧
    ∀ p1 p2, pre = p1 +:+ p2 → p2 ≠ "" → match_here re (p2 +:+ suf) = None.
Proof.
  induction s as [|c s IH]; simpl.
  - split.
    + destruct (match_here re "") eqn:E; [| done]. intros [= <-].
      exists "", "". split_and!; [done..|].
      intros [|] [|]; done.
    + intros ([|] & [|] & ? & Hm & _); try done. by rewrite Hm.
  - split.
    + destruct (match_here re (String c s)) eqn:E.
      * intros [= <-]. exists "", (String c s). split_and!; [done..|].
        intros [|] [|]; done.
      * intros (pre & suf & -> & Hm & Hleft)%IH.
        exists (String c pre), suf. split_and!; [done..|].
        intros [|c' p1] p2; sapp.
        -- intros <- _. by sapp.
        -- intros [= <- ->]. by apply (Hleft p1 p2).
    + intros ([|c' pre] & suf & Heq & Hm & Hleft); sapp_in Heq.
      * subst suf. by rewrite Hm.
      * injection Heq as <- ->.
        pose proof (Hleft "" (String c pre) eq_refl) as H0.
        sapp_in H0. rewrite H0 by done.
        apply IH. exists pre, suf. split_and!; [done..|].
        intros p1 p2 -> Hp2. by apply (Hleft (String c p1) p2).
Qed.

Lemma FindStringSubmatch_None re s :
  FindStringSubmatch re s = None ↔
  ∀ pre suf, s = pre +:+ suf → match_here re suf = None.
Proof.
  induction s as [|c s IH]; simpl.
  - split.
    + destruct (match_here re "") eqn:E; [done |].
      intros _ [|] [|]; done.
    + intros H. by rewrite (H "" "").
  - split.
    + destruct (match_here re (String c s)) eqn:E; [done |].
      intros H [|c' pre] suf; sapp.
      * by intros <-.
      * intros [= <- ->]. by apply (proj1 IH H pre).
    + intros H. rewrite (H "" (String c s)) by done.
      apply IH. intros pre suf ->. by apply (H (String c pre) suf).
Qed.

(** ** Label extraction *)

Lemma log_file_here_match l s :
  log_file_here l s ↔
  ∃ whole, match_here logFile s =
           Some [whole; Namespace l; Name l; UUID l; Container l].
Proof.
  split.
  - intros (Hok & mid & post & Hmid & ->).
    destruct (after_log_is_Some mid post Hmid) as [r Hr].
    eexists. apply match_here_logFile. by exists l, (mid +:+ ".log" +:+ post), r.
  - intros (whole & (l' & mid' & r & Hok & -> & Hr & [= -> Ha Hb Hc Hd])%match_here_logFile).
    assert (l = l') as <- by (destruct l, l'; simpl in *; congruence).
    split; [done |].
    apply after_log_Some in Hr as (mid & Hmid & ->). by exists mid, r.
Qed.

Lemma match_here_labels s m :
  match_here logFile s = Some m →
  log_file_here (mkLabels (nth 1 m "") (nth 2 m "") (nth 3 m "") (nth 4 m "")) s.
Proof.
  intros H. apply log_file_here_match.
  pose proof H as (l & mid & r & _ & _ & _ & ->)%match_here_logFile.
  eauto.
Qed.

Lemma log_file_here_inj l l' s :
  log_file_here l s → log_file_here l' s → l = l'.
Proof.
  intros [w H]%log_file_here_match [w' H']%log_file_here_match.
  rewrite H in H'. destruct l, l'; simpl in *; congruence.
Qed.

Lemma log_file_here_None s :
  match_here logFile s = None ↔ ∀ l, ¬ log_file_here l s.
Proof.
  split.
  - intros H l [w Hw]%log_file_here_match. congruence.
  - intros H. destruct (match_here logFile s) as [m|] eqn:E; [| done].
    destruct (H _ (match_here_labels s m E)).
Qed.

(** [Parse] succeeds with the labels of the leftmost place at which the
    path continues as a log file of some container. *)
Lemma Parse_Some path l :
  Parse path = Some l ↔
  ∃ pre suf, path = pre +:+ suf ∧ log_file_here l suf ∧
    ∀ p1 p2 l', pre = p1 +:+ p2 → p2 ≠ "" → ¬ log_file_here l' (p2 +:+ suf).
Proof.
  unfold Parse. split.
  - destruct (FindStringSubmatch logFile path) as [m|] eqn:E; [| done].
    intros [= <-].
    apply FindStringSubmatch_Some in E as (pre & suf & -> & Hm & Hleft).
    exists pre, suf. split_and!; [done | by apply match_here_labels |].
    intros p1 p2 l' Hp Hne. by apply log_file_here_None, (Hleft p1 p2).
  - intros (pre & suf & -> & [w Hw]%log_file_here_match & Hleft).
    assert (FindStringSubmatch logFile (pre +:+ suf) =
            Some [w; Namespace l; Name l; UUID l; Container l]) as ->.
    { apply FindStringSubmatch_Some. exists pre, suf. split_and!; [done..|].
      intros p1 p2 Hp Hne. apply log_file_here_None. intros l'.
      by apply (Hleft p1 p2). }
    by destruct l.
Qed.

Lemma Parse_None path :
  Parse path = None ↔
  ∀ pre suf l, path = pre +:+ suf → ¬ log_file_here l suf.
Proof.
  unfold Parse. split.
  - destruct (FindStringSubmatch logFile path) eqn:E; [done |]. intros _.
    intros pre suf l ->.
    by apply log_file_here_None, (proj1 (FindStringSubmatch_None _ _) E pre).
  - intros H.
    assert (FindStringSubmatch logFile path = None) as ->; [| done].
    apply FindStringSubmatch_None. intros pre suf ->.
    apply log_file_here_None. intros l. by apply (H pre suf).
Qed.

(** ** The counter vector *)

(** Above 2^53 only every second integer is a [float64], above 2^54
    every fourth; a tie goes to the even significand. *)
Example float64_rounds_to_nearest_even :
  float64 (2 ^ 53 + 1) = 2 ^ 53 ∧
  float64 (2 ^ 53 + 2) = 2 ^ 53 + 2 ∧
  float64 (2 ^ 53 + 3) = 2 ^ 53 + 4 ∧
  float64 (2 ^ 54 + 1) = 2 ^ 54 ∧
  float64 (2 ^ 54 + 3) = 2 ^ 54 + 4 ∧
  float64 (2 ^ 63 - 1) = 2 ^ 63 ∧
  float64 (- (2 ^ 53 + 1)) = - 2 ^ 53.
Proof. by vm_compute. Qed.

(** [float64] is exact on the integers up to 2^53. *)
Lemma float64_exact n : Z.abs n ≤ 2 ^ 53 → float64 n = n.
Proof.
  intros H. destruct (decide (Z.abs n = 2 ^ 53)) as [Heq|Hne].
  - destruct (Z.abs_spec n) as [[_ Ha]|[_ Ha]]; rewrite Ha in Heq.
    + by subst n.
    + replace n with (- 2 ^ 53) by lia. done.
  - unfold float64. destruct (Z.leb_spec (Z.log2 (Z.abs n) - 52) 0) as [|He]; [done |].
    exfalso. destruct (decide (Z.abs n = 0)) as [H0|H0].
    + rewrite H0 in He. simpl in He. lia.
    + assert (Z.log2 (Z.abs n) < 53); [| lia].
      apply Z.log2_lt_pow2; lia.
Qed.

(** Rounding keeps the sign. *)
Lemma float64_nonneg n : 0 ≤ n → 0 ≤ float64 n.
Proof.
  intros H. unfold float64.
  destruct (Z.leb_spec (Z.log2 (Z.abs n) - 52) 0) as [|He]; [done |].
  set (ulp := 2 ^ (Z.log2 (Z.abs n) - 52)).
  assert (0 < ulp) by (apply Z.pow_pos_nonneg; lia).
  assert (0 ≤ Z.abs n / ulp) by (apply Z.div_pos; lia).
  apply Z.mul_nonneg_nonneg; [lia |].
  apply Z.mul_nonneg_nonneg; [| lia].
  repeat case_match; lia.
Qed.

Lemma float64_sub_exact a b :
  0 ≤ b ≤ a → a ≤ 2 ^ 53 → float64_sub a b = a - b.
Proof. intros. unfold float64_sub. apply float64_exact. lia. Qed.

Lemma credit_nonneg lastSize size : 0 ≤ size → 0 ≤ credit lastSize size.
Proof.
  unfold credit, float64_sub. intros.
  destruct (Z.leb_spec lastSize size); [apply float64_nonneg |]; lia.
Qed.

(** Up to 2^53 the amount credited is the exact growth, or the whole
    length after a truncation. *)
Lemma credit_exact lastSize size :
  0 ≤ lastSize → 0 ≤ size ≤ 2 ^ 53 →
  credit lastSize size = if lastSize <=? size then size - lastSize else size.
Proof.
  intros. unfold credit. destruct (Z.leb_spec lastSize size); [| done].
  apply float64_sub_exact; lia.
Qed.

Lemma alter_GetMetric l v (m : CounterVec) :
  alter (fun x => x + v) l (GetMetricWithLabelValues l m)
  = <[l := default 0 (m !! l) + v]> m.
Proof.
  unfold GetMetricWithLabelValues. apply map_eq. intros l'.
  destruct (decide (l = l')) as [<-|Hne].
  - rewrite lookup_alter_eq, lookup_insert_eq.
    destruct (m !! l) eqn:E; simpl; [by rewrite E |].
    by rewrite lookup_insert_eq.
  - rewrite lookup_alter_ne, lookup_insert_ne by done.
    destruct (m !! l); [done |]. by rewrite lookup_insert_ne.
Qed.

Lemma counter_Add_Done l v (m : CounterVec) :
  0 ≤ v →
  counter_Add l v (GetMetricWithLabelValues l m)
  = Done (<[l := default 0 (m !! l) + v]> m).
Proof.
  intros Hv. unfold counter_Add.
  destruct (Z.ltb_spec v 0); [lia |]. by rewrite alter_GetMetric.
Qed.

(** ** [Update] on a log file *)

Section UpdateFile.
Variable Join : string → string → string.

Lemma Update_file fuel fs path l info w :
  Parse path = Some l → Stat fs path = Val info → 0 ≤ fi_Size info →
  Update Join (S fuel) fs path w =
    Done (mkWatcher
            (<[l := default 0 (metrics w !! l)
                    + credit (default 0 (sizes w !! path))
                             (float64 (fi_Size info))]>
               (metrics w))
            (<[path := float64 (fi_Size info)]> (sizes w))
            (logged w ++ [LogInfo 3 "updated metric" path
                            (float64 (fi_Size info))])).
Proof.
  intros Hl Hstat Hsize. simpl. rewrite Hl, Hstat.
  by rewrite counter_Add_Done by by apply credit_nonneg, float64_nonneg.
Qed.

Lemma Update_stat_error fuel fs path l err w :
  Parse path = Some l → Stat fs path = Err err →
  Update Join (S fuel) fs path w =
    Done (if IsNotExist err then w
          else log_append (LogError err "updating metric" path) w).
Proof. intros Hl Hstat. simpl. by rewrite Hl, Hstat. Qed.

(** C1, amended: for a path that the label extractor accepts and whose
    stat gives a length [size] of at most 2^53 bytes, with [lastSize] the
    stored size (0 if absent, and not negative), [Update] adds
    [size - lastSize] to the container's counter when [size ≥ lastSize],
    adds the whole [size] when [size < lastSize], and stores [size] in the
    size table in both cases. *)
Theorem Update_credits_growth_or_whole_size fuel fs path l info w :
  Parse path = Some l → Stat fs path = Val info →
  0 ≤ fi_Size info ≤ 2 ^ 53 →
  0 ≤ default 0 (sizes w !! path) →
  let size := fi_Size info in
  let lastSize := default 0 (sizes w !! path) in
  let count := default 0 (metrics w !! l) in
  ∃ w', Update Join (S fuel) fs path w = Done w' ∧
    (lastSize ≤ size →
       metrics w' = <[l := count + (size - lastSize)]> (metrics w)) ∧
    (size < lastSize → metrics w' = <[l := count + size]> (metrics w)) ∧
    sizes w' = <[path := size]> (sizes w).
Proof.
  intros Hl Hstat Hsize Hlast size lastSize count.
  eexists. split; [apply Update_file; [done | done | lia] |].
  cbn [metrics sizes]. rewrite float64_exact by lia.
  rewrite credit_exact by done. fold size lastSize count.
  split_and!; [| | done].
  - intros H. by destruct (Z.leb_spec lastSize size); [| lia].
  - intros H. by destruct (Z.leb_spec lastSize size); [lia |].
Qed.

(** C1 as it was stated fails on files longer than 2^53 bytes, because
    the lengths are held as [float64]: a new file of 2^53 + 1 bytes is
    stored and credited as 2^53 bytes, and a growth from 1 byte to
    2^53 + 2 bytes is credited as 2^53 bytes, one less than it is. *)
Lemma Update_rounds_lengths_above_2_53 :
  (Parse log0 = Some log0_labels ∧
   Stat fs_huge log0 = Val (mkFileInfo log0 (2 ^ 53 + 1)) ∧
   ∃ w', Update join_slash 1 fs_huge log0 New_state = Done w' ∧
         sizes w' !! log0 = Some (2 ^ 53) ∧
         metrics w' !! log0_labels = Some (2 ^ 53)) ∧
  (Stat fs_huge_grown log0 = Val (mkFileInfo log0 (2 ^ 53 + 2)) ∧
   sizes w_one !! log0 = Some 1 ∧ metrics w_one !! log0_labels = Some 1 ∧
   ∃ w', Update join_slash 1 fs_huge_grown log0 w_one = Done w' ∧
         sizes w' !! log0 = Some (2 ^ 53 + 2) ∧
         metrics w' !! log0_labels = Some (1 + 2 ^ 53)) ∧
  ¬ (∀ fs path l info w,
       Parse path = Some l → Stat fs path = Val info → 0 ≤ fi_Size info →
       let size := fi_Size info in
       let lastSize := default 0 (sizes w !! path) in
       let count := default 0 (metrics w !! l) in
       ∃ w', Update join_slash 1 fs path w = Done w' ∧
         (lastSize ≤ size →
            metrics w' = <[l := count + (size - lastSize)]> (metrics w)) ∧
         (size < lastSize → metrics w' = <[l := count + size]> (metrics w)) ∧
         sizes w' = <[path := size]> (sizes w)).
Proof.
  split_and!.
  - done.
  - done.
  - eexists. split_and!; by vm_compute.
  - done.
  - done.
  - done.
  - eexists. split_and!; by vm_compute.
  - intros H.
    destruct (H fs_huge log0 log0_labels (mkFileInfo log0 (2 ^ 53 + 1)) New_state)
      as (w' & Hrun & _ & _ & Hs); [done | done | simpl; lia |].
    assert (sizes w' !! log0 = Some (2 ^ 53)) as Hstored.
    { revert Hrun. vm_compute. by intros [= <-]. }
    rewrite Hs, lookup_insert_eq in Hstored. by injection Hstored.
Qed.

(** C5: when the stat of a label-matching path fails with a
    does-not-exist error, [Update] returns with nothing logged and the
    size table and the counters unchanged; when it fails with any other
    error, that error is logged and the size table and the counters are
    unchanged as well. *)
Theorem Update_skips_failed_stat fuel fs path l err w :
  Parse path = Some l → Stat fs path = Err err →
  ∃ w', Update Join (S fuel) fs path w = Done w' ∧
    sizes w' = sizes w ∧ metrics w' = metrics w ∧
    (IsNotExist err = true → logged w' = logged w) ∧
    (IsNotExist err = false →
       logged w' = (logged w ++ [LogError err "updating metric" path])%list).
Proof.
  intros Hl Hstat. eexists. split; [by apply (Update_stat_error _ _ _ l) |].
  destruct (IsNotExist err); simpl; split_and!; done.
Qed.
End UpdateFile.

(** ** Loops *)

Lemma for_each_app {A S} (f : A → S → exec S) l1 l2 s :
  for_each f (l1 ++ l2) s = (s' ←! for_each f l1 s; for_each f l2 s').
Proof.
  revert s. induction l1 as [|a l1 IH]; intros s; simpl; [done |].
  destruct (f a s); simpl; [apply IH | done..].
Qed.

(** A reflexive and transitive relation that every step keeps, when no
    step panics, is kept by the loop, which does not panic either. *)
Lemma for_each_preserves {A S} (P : S → S → Prop) (f : A → S → exec S) l s :
  (∀ s, P s s) → (∀ s1 s2 s3, P s1 s2 → P s2 s3 → P s1 s3) →
  (∀ a s, a ∈ l →
     match f a s with Done s' => P s s' | Panic _ => False | OutOfFuel => True end) →
  match for_each f l s with
  | Done s' => P s s' | Panic _ => False | OutOfFuel => True
  end.
Proof.
  intros Hrefl Htrans. revert s. induction l as [|a l IH]; intros s Hf; simpl.
  - apply Hrefl.
  - pose proof (Hf a s ltac:(left)) as Ha.
    destruct (f a s) as [s1| |]; simpl; [| done..].
    specialize (IH s1 ltac:(intros; apply Hf; by right)).
    destruct (for_each f l s1); [| done..]. by eapply Htrans.
Qed.

Lemma for_each_mono {A S} (f g : A → S → exec S) l s s' :
  (∀ a s s', a ∈ l → f a s = Done s' → g a s = Done s') →
  for_each f l s = Done s' → for_each g l s = Done s'.
Proof.
  revert s. induction l as [|a l IH]; intros s Hfg; simpl; [done |].
  destruct (f a s) as [s1| |] eqn:E; simpl; [| done..].
  rewrite (Hfg a s s1) by (done || left). simpl.
  apply IH. intros; apply Hfg; [by right | done].
Qed.

Lemma for_each_returns {A S} (f : A → S → exec S) l s :
  (∀ a s, a ∈ l → ∃ s', f a s = Done s') → ∃ s', for_each f l s = Done s'.
Proof.
  revert s. induction l as [|a l IH]; intros s Hf; simpl; [eauto |].
  destruct (Hf a s ltac:(left)) as [s1 ->]. simpl.
  apply IH. intros; apply Hf. by right.
Qed.

(** ** Counters only grow under [Update] *)

Lemma counters_le_refl w : counters_le w w.
Proof. intros l v ?. exists v. split; [done | lia]. Qed.

Lemma counters_le_trans w1 w2 w3 :
  counters_le w1 w2 → counters_le w2 w3 → counters_le w1 w3.
Proof.
  intros H12 H23 l v Hv.
  destruct (H12 l v Hv) as (v2 & Hv2 & ?).
  destruct (H23 l v2 Hv2) as (v3 & Hv3 & ?).
  exists v3. split; [done | lia].
Qed.

Section UpdateRecursion.
Variable Join : string → string → string.

Lemma Update_counters_le fuel fs path w :
  sizes_nonneg fs →
  match Update Join fuel fs path w with
  | Done w' => counters_le w w'
  | Panic _ => False
  | OutOfFuel => True
  end.
Proof.
  intros Hfs. revert path w. induction fuel as [|fuel IH]; intros path w; [done |].
  simpl. destruct (Parse path) as [l|] eqn:Hl.
  - destruct (Stat fs path) as [info|err] eqn:Hstat.
    + assert (0 ≤ float64 (fi_Size info)) as Hsize
        by (apply float64_nonneg; eauto).
      rewrite counter_Add_Done by by apply credit_nonneg. simpl.
      intros l' v Hv. simpl. destruct (decide (l = l')) as [<-|Hne].
      * rewrite lookup_insert_eq, Hv. simpl. eexists; split; [done |].
        pose proof (credit_nonneg (default 0 (sizes w !! path))
                      (float64 (fi_Size info)) Hsize). lia.
      * rewrite lookup_insert_ne by done. exists v. split; [done | lia].
    + destruct (IsNotExist err); intros l' v Hv; exists v; (split; [done | lia]).
  - destruct (ReadDir fs path) as [infos|err]; [| apply counters_le_refl].
    apply (for_each_preserves counters_le).
    + apply counters_le_refl.
    + apply counters_le_trans.
    + intros info w1 _. apply IH.
Qed.

(** More fuel does not change what [Update] returns. *)
Lemma Update_fuel_S fuel fs path w w' :
  Update Join fuel fs path w = Done w' →
  Update Join (S fuel) fs path w = Done w'.
Proof.
  revert path w w'. induction fuel as [|fuel IH]; intros path w w'; [done |].
  intros H. simpl in H. change (Update Join (S (S fuel)) fs path w) with
    (match Parse path with
     | Some l =>
         match Stat fs path with
         | Err err =>
             Done (if IsNotExist err then w
                   else log_append (LogError err "updating metric" path) w)
         | Val stat =>
             metrics2 ←! counter_Add l
               (credit (default 0 (sizes w !! path)) (float64 (fi_Size stat)))
               (GetMetricWithLabelValues l (metrics w));
             Done (mkWatcher metrics2
                     (<[path := float64 (fi_Size stat)]> (sizes w))
                     (logged w ++ [LogInfo 3 "updated metric" path
                                     (float64 (fi_Size stat))]))
         end
     | None =>
         match ReadDir fs path with
         | Val infos =>
             for_each (fun info => Update Join (S fuel) fs (Join path (fi_Name info)))
                      infos w
         | Err _ => Done w
         end
     end).
  destruct (Parse path); [done |].
  destruct (ReadDir fs path); [| done].
  revert H. apply for_each_mono. intros info w1 w2 _. apply IH.
Qed.

Lemma Update_fuel_le n m fs path w w' :
  (n ≤ m)%nat → Update Join n fs path w = Done w' →
  Update Join m fs path w = Done w'.
Proof.
  induction 1 as [|m Hle IH]; [done |].
  intros H. by apply Update_fuel_S, IH.
Qed.

Lemma Update_dir fuel fs path infos w :
  Parse path = None → ReadDir fs path = Val infos →
  Update Join (S fuel) fs path w =
    for_each (fun info => Update Join fuel fs (Join path (fi_Name info))) infos w.
Proof. intros Hl Hdir. simpl. by rewrite Hl, Hdir. Qed.

Lemma Update_not_dir fuel fs path err w :
  Parse path = None → ReadDir fs path = Err err →
  Update Join (S fuel) fs path w = Done w.
Proof. intros Hl Hdir. simpl. by rewrite Hl, Hdir. Qed.

(** The loop over the entries returns with some fuel exactly when the
    calls for the entries return one after the other. *)
Lemma for_each_Update_children fs path infos w w' :
  (∃ fuel, for_each (fun info => Update Join fuel fs (Join path (fi_Name info)))
             infos w = Done w') ↔
  Update_children Join fs path infos w w'.
Proof.
  split.
  - intros [fuel H]. revert w H. induction infos as [|info infos IH]; intros w.
    + intros [= <-]. constructor.
    + simpl. destruct (Update _ _ _ _ w) as [w1| |] eqn:E; simpl; [| done..].
      intros H. econstructor; [by exists fuel | by apply IH].
  - induction 1 as [w|info infos w w1 w2 [n Hn] _ [m Hm]].
    + by exists 0%nat.
    + exists (Nat.max n m). simpl.
      rewrite (Update_fuel_le n (Nat.max n m) _ _ _ w1) by (lia || done). simpl.
      revert Hm. apply for_each_mono. intros a s s' _.
      apply Update_fuel_le. lia.
Qed.

(** [Update] returns on a tree of bounded depth with non-negative file
    lengths. *)
Lemma Update_terminates fs d path w :
  sizes_nonneg fs → scan_depth Join fs d path →
  ∃ w', Update Join (S d) fs path w = Done w'.
Proof.
  intros Hfs Hd. revert w.
  induction Hd as [d path l Hl|d path e Hl Hdir|d path infos Hl Hdir _ IH]; intros w.
  - simpl. rewrite Hl. destruct (Stat fs path) as [info|err] eqn:Hstat; [| eauto].
    rewrite counter_Add_Done by (apply credit_nonneg, float64_nonneg; eauto). simpl. eauto.
  - rewrite (Update_not_dir _ _ _ e) by done. eauto.
  - rewrite (Update_dir _ _ _ infos) by done.
    apply for_each_returns. intros info w1 Hin. by apply IH.
Qed.
End UpdateRecursion.

Section UpdateTheorems.
Variable Join : string → string → string.

(** C2: along any sequence of [Update] calls, on any paths and with the
    file system changing between the calls, every amount handed to
    [Counter.Add] is non-negative: the amount credited for a file is never
    negative, no call panics, and a series that exists keeps existing with
    a value that never decreases. File lengths are assumed non-negative. *)
Theorem Updates_never_decrease_a_counter fuel calls w :
  (∀ c, c ∈ calls → sizes_nonneg c.1) →
  (∀ lastSize size, 0 ≤ size → 0 ≤ credit lastSize size) ∧
  (∀ msg, Updates Join fuel calls w ≠ Panic msg) ∧
  (∀ w', Updates Join fuel calls w = Done w' →
     ∀ l v, metrics w !! l = Some v →
       ∃ v', metrics w' !! l = Some v' ∧ v ≤ v').
Proof.
  intros Hcalls.
  assert (match Updates Join fuel calls w with
          | Done w' => counters_le w w'
          | Panic _ => False
          | OutOfFuel => True
          end) as H.
  { apply (for_each_preserves counters_le).
    - apply counters_le_refl.
    - apply counters_le_trans.
    - intros c w1 Hc. by apply Update_counters_le, Hcalls. }
  split_and!.
  - apply credit_nonneg.
  - intros msg E. by rewrite E in H.
  - intros w' E. by rewrite E in H.
Qed.

(** C6: on a path for which label extraction fails, [Update] lists the
    entries of the path and applies [Update] to each of them in turn, so
    that it returns exactly when these calls return one after the other,
    with their final state; when the listing fails the path is ignored:
    [Update] returns and nothing has changed. On a tree of bounded depth
    with non-negative file lengths the call does return. *)
Theorem Update_recurses_into_directories fs path w :
  Parse path = None →
  (∀ infos, ReadDir fs path = Val infos →
     (∀ fuel, Update Join (S fuel) fs path w =
        for_each (fun info => Update Join fuel fs (Join path (fi_Name info)))
                 infos w) ∧
     (∀ w', Update_returns Join fs path w w' ↔
            Update_children Join fs path infos w w')) ∧
  (∀ err, ReadDir fs path = Err err →
     ∀ fuel, Update Join (S fuel) fs path w = Done w) ∧
  (∀ d, sizes_nonneg fs → scan_depth Join fs d path →
     ∃ w', Update Join (S d) fs path w = Done w').
Proof.
  intros Hl. split_and!.
  - intros infos Hdir. split.
    + intros fuel. by apply Update_dir.
    + intros w'. rewrite <- for_each_Update_children. split.
      * intros [[|fuel] H]; [done |]. exists fuel.
        by rewrite <- (Update_dir _ _ _ _ infos).
      * intros [fuel H]. exists (S fuel). by rewrite (Update_dir _ _ _ _ infos).
  - intros err Hdir fuel. by apply (Update_not_dir _ _ _ _ err).
  - intros d Hfs Hd. by apply Update_terminates.
Qed.

(** ** The event loop *)

Lemma Watch_cons fuel fs r script w :
  Watch Join fuel ((fs, r) :: script) w =
    match r with
    | Err err => Done (Returned (if is_EOF err then None else Some err), w)
    | Val e =>
        if decide (fsnotify.Op e = fsnotify.Remove) then
          Watch Join fuel script (Remove (fsnotify.Name e) w)
        else
          w' ←! Update Join fuel fs (fsnotify.Name e) w;
          Watch Join fuel script w'
    end.
Proof.
  simpl. destruct r as [e|err].
  - destruct (Z.eqb_spec (fsnotify.Op e) fsnotify.Remove);
      by destruct (decide _).
  - by destruct (is_EOF err).
Qed.

Lemma Watch_app fuel pre rest w :
  Watch Join fuel (pre ++ rest) w =
    (x ←! Watch Join fuel pre w;
     match x.1 with
     | Blocked => Watch Join fuel rest x.2
     | Returned r => Done (Returned r, x.2)
     end).
Proof.
  revert w. induction pre as [|[fs r] pre IH]; intros w; [done |].
  rewrite <- app_comm_cons, !Watch_cons.
  destruct r as [e|err]; [| done].
  destruct (decide _); [apply IH |].
  destruct (Update Join fuel fs (fsnotify.Name e) w); simpl; [apply IH | done..].
Qed.

Lemma Watch_all_events fuel pre w x :
  all_events pre → Watch Join fuel pre w = Done x → x.1 = Blocked.
Proof.
  intros Hpre. revert w. induction Hpre as [|[fs r] pre [e He] _ IH]; intros w.
  - by intros [= <-].
  - simpl in He. subst r. rewrite Watch_cons.
    destruct (decide _); [apply IH |].
    destruct (Update Join fuel fs (fsnotify.Name e) w); simpl; [apply IH | done..].
Qed.

(** [Watch] returns exactly at the first error in the script, once the
    events before it have been handled. *)
Lemma Watch_Returned fuel script w r w' :
  Watch Join fuel script w = Done (Returned r, w') ↔
  ∃ pre fs err post,
    script = (pre ++ (fs, Err err) :: post)%list ∧ all_events pre ∧
    Watch Join fuel pre w = Done (Blocked, w') ∧
    r = if is_EOF err then None else Some err.
Proof.
  split.
  - revert w. induction script as [|[fs x] script IH]; intros w; [done |].
    rewrite Watch_cons. destruct x as [e|err].
    + intros H.
      assert (∃ w1, Watch Join fuel script w1 = Done (Returned r, w') ∧
                ∀ pre, Watch Join fuel pre w1 = Done (Blocked, w') →
                  Watch Join fuel ((fs, Val e) :: pre) w = Done (Blocked, w'))
        as (w1 & H1 & Hpre1).
      { destruct (decide _) as [Hop|Hop].
        - eexists; split; [done |]. intros pre Hp.
          rewrite Watch_cons. by destruct (decide _).
        - destruct (Update Join fuel fs (fsnotify.Name e) w) as [w1| |] eqn:E;
            [| done..].
          exists w1; split; [done |]. intros pre Hp.
          rewrite Watch_cons. destruct (decide _); [done |]. by rewrite E. }
      destruct (IH _ H1) as (pre & fs' & err & post & -> & Hpre & Hrun & ->).
      exists ((fs, Val e) :: pre), fs', err, post.
      split_and!; [done | | by apply Hpre1 | done].
      constructor; [by exists e | done].
    + intros [= <- <-]. exists [], fs, err, script.
      split_and!; [done | constructor | done..].
  - intros (pre & fs' & err & post & -> & Hpre & Hrun & ->).
    rewrite Watch_app, Hrun. cbn [bind fst snd]. by rewrite Watch_cons.
Qed.

(** C7: [Watch] calls [Event()] again and again. When [Event] gives an
    error, [Watch] returns: nil for the end-of-stream error and the error
    itself for any other, and it returns in no other way. An event with
    op [Remove] is handed to [Remove] with its name, an event with any
    other op to [Update] with its name, and the loop goes on with the
    next event. *)
Theorem Watch_returns_on_errors_and_routes_events fuel fs script w :
  Watch Join fuel ((fs, Err EOF) :: script) w = Done (Returned None, w) ∧
  (∀ err, err ≠ EOF →
     Watch Join fuel ((fs, Err err) :: script) w = Done (Returned (Some err), w)) ∧
  (∀ e, fsnotify.Op e = fsnotify.Remove →
     Watch Join fuel ((fs, Val e) :: script) w =
     Watch Join fuel script (Remove (fsnotify.Name e) w)) ∧
  (∀ e, fsnotify.Op e ≠ fsnotify.Remove →
     Watch Join fuel ((fs, Val e) :: script) w =
     (w' ←! Update Join fuel fs (fsnotify.Name e) w;
      Watch Join fuel script w')) ∧
  (∀ w', Watch Join fuel script w = Done (Returned None, w') ↔
     ∃ pre fs' post,
       script = (pre ++ (fs', Err EOF) :: post)%list ∧ all_events pre ∧
       Watch Join fuel pre w = Done (Blocked, w')) ∧
  (∀ err w', Watch Join fuel script w = Done (Returned (Some err), w') ↔
     err ≠ EOF ∧
     ∃ pre fs' post,
       script = (pre ++ (fs', Err err) :: post)%list ∧ all_events pre ∧
       Watch Join fuel pre w = Done (Blocked, w')).
Proof.
  split_and!.
  - by rewrite Watch_cons.
  - intros err Herr. rewrite Watch_cons. by destruct err.
  - intros e He. rewrite Watch_cons. by destruct (decide _).
  - intros e He. rewrite Watch_cons. by destruct (decide _).
  - intros w'. rewrite Watch_Returned. split.
    + intros (pre & fs' & err & post & -> & Hpre & Hrun & Hr).
      destruct err; [| done..]. by exists pre, fs', post.
    + intros (pre & fs' & post & -> & Hpre & Hrun).
      by exists pre, fs', EOF, post.
  - intros err w'. rewrite Watch_Returned. split.
    + intros (pre & fs' & err' & post & -> & Hpre & Hrun & Hr).
      destruct err'; [done | ..]; injection Hr as ->;
        (split; [done |]); by eexists pre, fs', post.
    + intros (Herr & pre & fs' & post & -> & Hpre & Hrun).
      exists pre, fs', err, post. split_and!; [done..|]. by destruct err.
Qed.
End UpdateTheorems.

(** ** Pod directories *)

Lemma last_char_append a b : b ≠ "" → last_char (a +:+ b) = last_char b.
Proof.
  intros Hb. induction a as [|c a IH]; sapp; [done |].
  simpl. rewrite IH. destruct (a +:+ b) eqn:E; [| done].
  destruct a, b; done.
Qed.

Lemma all_in_last_char rs s c :
  all_in rs s = true → last_char s = Some c → in_ranges rs c = true.
Proof.
  induction s as [|x s IH]; simpl; [done |].
  intros [Hx Hs]%andb_true_iff. destruct s; [congruence | by apply IH].
Qed.

Lemma FindStringSubmatch_is_Some re s :
  is_Some (FindStringSubmatch re s) ↔
  ∃ pre suf, s = pre +:+ suf ∧ is_Some (match_here re suf).
Proof.
  split.
  - intros [m (pre & suf & -> & Hm & _)%FindStringSubmatch_Some]. eauto.
  - intros (pre & suf & -> & Hm).
    destruct (FindStringSubmatch re (pre +:+ suf)) eqn:E; [eauto |].
    rewrite (proj1 (FindStringSubmatch_None _ _) E pre suf) in Hm by done.
    by destruct Hm.
Qed.

(** The paths that [Remove] takes for pod directories: those that end
    in [/<ns>_<pod>_<uuid>]. *)
Lemma logPodDir_matches path :
  is_Some (FindStringSubmatch logPodDir path) ↔
  ∃ pre ns pod uuid, segment name_chars ns ∧ segment name_chars pod ∧
    segment uuid_chars uuid ∧ path = pre +:+ pod_dir_path ns pod uuid.
Proof.
  rewrite FindStringSubmatch_is_Some. split.
  - intros (pre & suf & -> & (ns & pod & uuid & ? & ? & ? & ->)%match_here_logPodDir).
    by exists pre, ns, pod, uuid.
  - intros (pre & ns & pod & uuid & ? & ? & ? & ->).
    exists pre, (pod_dir_path ns pod uuid). split; [done |].
    apply match_here_logPodDir. by exists ns, pod, uuid.
Qed.

(** A path that ends in [.log] is no pod directory. *)
Lemma logPodDir_not_log_file file :
  FindStringSubmatch logPodDir (file +:+ ".log") = None.
Proof.
  destruct (FindStringSubmatch logPodDir (file +:+ ".log")) eqn:E; [| done].
  assert (is_Some (FindStringSubmatch logPodDir (file +:+ ".log"))) as H by eauto.
  apply logPodDir_matches in H
    as (pre & ns & pod & uuid & _ & _ & [Hne Huuid] & Heq).
  assert (last_char (file +:+ ".log") = Some "g"%char) as Hg
    by by rewrite last_char_append.
  rewrite Heq in Hg. unfold pod_dir_path in Hg.
  rewrite <- !append_assoc in Hg. rewrite last_char_append in Hg by done.
  by pose proof (all_in_last_char _ _ _ Huuid Hg).
Qed.

(** ** [Remove] *)

Section RemoveLoop.
Variable path : string.

Lemma Remove_key_sizes k w k' :
  sizes (Remove_key path k w) !! k' =
    if decide (k' = k ∧ String.prefix path k = true) then None
    else sizes w !! k'.
Proof.
  unfold Remove_key. destruct (String.prefix path k) eqn:E.
  - assert (sizes (match Parse k with
                   | Some l => mkWatcher (DeleteLabelValues l (metrics w))
                                 (delete k (sizes w)) (logged w)
                   | None => mkWatcher (metrics w) (delete k (sizes w)) (logged w)
                   end) = delete k (sizes w)) as -> by by destruct (Parse k).
    destruct (decide (k' = k)) as [->|Hne].
    + rewrite lookup_delete_eq. by rewrite decide_True.
    + rewrite lookup_delete_ne by done. rewrite decide_False; [done | tauto].
  - rewrite decide_False; [done |]. intros [_ ?]. done.
Qed.

Lemma Remove_key_metrics k w l :
  metrics (Remove_key path k w) !! l =
    if decide (String.prefix path k = true ∧ Parse k = Some l) then None
    else metrics w !! l.
Proof.
  unfold Remove_key, DeleteLabelValues.
  case_decide as H.
  - destruct H as [-> ->]. apply lookup_delete_eq.
  - destruct (String.prefix path k); [| done].
    destruct (Parse k) as [l'|]; cbn [metrics]; [| done].
    apply lookup_delete_ne. intros ->. by apply H.
Qed.

Lemma Remove_key_logged k w : logged (Remove_key path k w) = logged w.
Proof.
  unfold Remove_key. destruct (String.prefix path k); [| done].
  by destruct (Parse k).
Qed.

Lemma loop_sizes keys w k :
  sizes (Remove_loop path keys w) !! k =
    if decide (k ∈ keys ∧ String.prefix path k = true) then None
    else sizes w !! k.
Proof.
  unfold Remove_loop. revert w.
  induction keys as [|k0 keys IH]; intros w; cbn [foldl].
  - rewrite decide_False; [done |]. intros [?%elem_of_nil _]. done.
  - rewrite IH, Remove_key_sizes.
    destruct (decide (k ∈ keys ∧ String.prefix path k = true)) as [[Hin Hp]|Hn].
    + rewrite decide_True; [done |]. split; [by right | done].
    + destruct (decide (k = k0 ∧ String.prefix path k0 = true)) as [[-> Hp]|Hn0].
      * rewrite decide_True; [done |]. split; [by left | done].
      * rewrite decide_False; [done |].
        intros [[->|Hin]%elem_of_cons Hp]; [by apply Hn0 | by apply Hn].
Qed.

Lemma loop_metrics_deleted keys w l k :
  k ∈ keys → String.prefix path k = true → Parse k = Some l →
  metrics (Remove_loop path keys w) !! l = None.
Proof.
  unfold Remove_loop. revert w. induction keys as [|k0 keys IH]; intros w; cbn [foldl].
  - by intros ?%elem_of_nil.
  - intros [->|Hin]%elem_of_cons Hpre Hl; [| by apply IH].
    clear IH. generalize (Remove_key_metrics k0 w l).
    rewrite decide_True by done.
    generalize (Remove_key path k0 w). clear w. intros w Hw.
    revert w Hw. induction keys as [|k1 keys IH]; intros w Hw; cbn [foldl]; [done |].
    apply IH. rewrite Remove_key_metrics. by case_decide.
Qed.

Lemma loop_metrics_kept keys w l :
  (∀ k, k ∈ keys → String.prefix path k = true → Parse k ≠ Some l) →
  metrics (Remove_loop path keys w) !! l = metrics w !! l.
Proof.
  unfold Remove_loop. revert w. induction keys as [|k0 keys IH]; intros w Hk; cbn [foldl].
  - done.
  - rewrite IH by (intros; apply Hk; [by right | done]).
    rewrite Remove_key_metrics, decide_False; [done |].
    intros [? ?]. by apply (Hk k0); [left | |].
Qed.

Lemma loop_logged keys w : logged (Remove_loop path keys w) = logged w.
Proof.
  unfold Remove_loop. revert w. induction keys as [|k0 keys IH]; intros w; cbn [foldl]; [done |].
  by rewrite IH, Remove_key_logged.
Qed.
End RemoveLoop.

Lemma Watcher_eq w1 w2 :
  metrics w1 = metrics w2 → sizes w1 = sizes w2 → logged w1 = logged w2 →
  w1 = w2.
Proof. destruct w1, w2; simpl; congruence. Qed.

Lemma elem_of_keys_of w k : k ∈ keys_of w ↔ is_Some (sizes w !! k).
Proof.
  unfold keys_of. rewrite list_elem_of_fmap. split.
  - intros ([k' v] & -> & Hin%elem_of_map_to_list). eauto.
  - intros [v Hv]. exists (k, v). split; [done |]. by apply elem_of_map_to_list.
Qed.

(** The order in which the keys are ranged over does not matter. *)
Lemma Remove_in_order_Permutation keys keys' path w :
  keys ≡ₚ keys' → Remove_in_order keys path w = Remove_in_order keys' path w.
Proof.
  intros Hperm. unfold Remove_in_order.
  destruct (FindStringSubmatch logPodDir path); [| done].
  apply Watcher_eq.
  - apply map_eq. intros lbl.
    destruct (decide (Exists (fun k => String.prefix path k = true ∧ Parse k = Some lbl)
                        keys)) as [Hex|Hex].
    + pose proof Hex as Hex'. rewrite Hperm in Hex'.
      apply Exists_exists in Hex as (k & Hin & Hp & Hl).
      apply Exists_exists in Hex' as (k' & Hin' & Hp' & Hl').
      rewrite (loop_metrics_deleted path keys w lbl k) by done.
      by rewrite (loop_metrics_deleted path keys' w lbl k').
    + rewrite !loop_metrics_kept; [done | |].
      * intros k Hin Hp Hl. apply Hex. rewrite Hperm. apply Exists_exists. eauto.
      * intros k Hin Hp Hl. apply Hex. apply Exists_exists. eauto.
  - apply map_eq. intros k. rewrite !loop_sizes.
    repeat case_decide; try done; exfalso.
    + rewrite Hperm in H. tauto.
    + rewrite <- Hperm in H0. tauto.
  - by rewrite !loop_logged.
Qed.

(** What the loop of [Remove] leaves, for a pod directory [path]. *)
Lemma Remove_in_order_pod_dir keys path w :
  keys ≡ₚ keys_of w →
  is_Some (FindStringSubmatch logPodDir path) →
  let w' := Remove_in_order keys path w in
  (∀ k, sizes w' !! k =
        if String.prefix path k then None else sizes w !! k) ∧
  (∀ k l, is_Some (sizes w !! k) → String.prefix path k = true →
          Parse k = Some l → metrics w' !! l = None) ∧
  (∀ l, (∀ k, is_Some (sizes w !! k) → String.prefix path k = true →
              Parse k ≠ Some l) →
        metrics w' !! l = metrics w !! l).
Proof.
  intros Hperm [m Hm]. unfold Remove_in_order. rewrite Hm. split_and!.
  - intros k. rewrite loop_sizes.
    destruct (String.prefix path k) eqn:E.
    + case_decide as H; [done |].
      destruct (sizes w !! k) eqn:Ek; [| done].
      exfalso. apply H. split; [| done].
      rewrite Hperm. apply elem_of_keys_of. eauto.
    + rewrite decide_False; [done |]. intros [_ ?]. done.
  - intros k l Hk Hp Hl. apply (loop_metrics_deleted path keys w l k); [| done..].
    rewrite Hperm. by apply elem_of_keys_of.
  - intros l Hkeep. apply loop_metrics_kept. intros k Hin.
    apply Hkeep. apply elem_of_keys_of. by rewrite <- Hperm.
Qed.

(** C4: [Remove path] cleans up exactly when [path] matches the pattern
    of a pod directory. Then every entry of the size table whose key has
    [path] as a prefix is deleted, and for each of them the series of its
    labels is deleted from the counter vector (it is absent, not zero);
    the other series are untouched. On any other path, such as that of a
    single log file, [Remove] changes neither the size table nor the
    counter vector. This holds for every order in which the keys of the
    size table are ranged over. *)
Theorem Remove_cleans_up_pod_directories_only keys path w :
  keys ≡ₚ keys_of w →
  let w' := Remove_in_order keys path w in
  w' = Remove path w ∧
  (is_Some (FindStringSubmatch logPodDir path) →
     (∀ k, sizes w' !! k =
           if String.prefix path k then None else sizes w !! k) ∧
     (∀ k l, is_Some (sizes w !! k) → String.prefix path k = true →
             Parse k = Some l → metrics w' !! l = None) ∧
     (∀ l, (∀ k, is_Some (sizes w !! k) → String.prefix path k = true →
                 Parse k ≠ Some l) →
           metrics w' !! l = metrics w !! l)) ∧
  (FindStringSubmatch logPodDir path = None → w' = w) ∧
  (∀ file, path = file +:+ ".log" → w' = w).
Proof.
  intros Hperm w'. subst w'. split_and!.
  - by apply Remove_in_order_Permutation.
  - by apply Remove_in_order_pod_dir.
  - intros Hnone. unfold Remove_in_order. by rewrite Hnone.
  - intros file ->. unfold Remove_in_order.
    by rewrite logPodDir_not_log_file.
Qed.

(** C10: the prefix test of [Remove] is a plain string prefix. For a pod
    directory path [p], [Remove p] deletes the size entry and the counter
    series of every stored path that continues the string [p], also when
    the path lies under a sibling directory whose name only extends the
    last segment of [p]; the size entries of stored paths that do not
    continue [p] are unchanged. *)
Theorem Remove_prefix_is_lexical p w :
  is_Some (FindStringSubmatch logPodDir p) →
  let w' := Remove p w in
  (∀ k, String.prefix p k = true ↔ ∃ rest, k = p +:+ rest) ∧
  (∀ rest, sizes w' !! (p +:+ rest) = None ∧
     ∀ l, is_Some (sizes w !! (p +:+ rest)) → Parse (p +:+ rest) = Some l →
          metrics w' !! l = None) ∧
  (∀ ext file l,
     let sibling := p +:+ ext +:+ "/" +:+ file in
     sizes w' !! sibling = None ∧
     (is_Some (sizes w !! sibling) → Parse sibling = Some l →
      metrics w' !! l = None)) ∧
  (∀ k, (∀ rest, k ≠ p +:+ rest) → sizes w' !! k = sizes w !! k).
Proof.
  intros Hp w'.
  destruct (Remove_in_order_pod_dir (keys_of w) p w ltac:(done) Hp)
    as (Hsizes & Hdel & _).
  fold (Remove p w) in Hsizes, Hdel. fold w' in Hsizes, Hdel.
  assert (∀ rest, String.prefix p (p +:+ rest) = true) as Hpre.
  { intros rest. apply prefix_append. eauto. }
  split_and!.
  - apply prefix_append.
  - intros rest. split.
    + by rewrite Hsizes, Hpre.
    + intros l Hk Hl. by apply (Hdel (p +:+ rest)).
  - intros ext file l sibling. subst sibling. split.
    + by rewrite Hsizes, Hpre.
    + intros Hk Hl. by apply (Hdel (p +:+ ext +:+ "/" +:+ file)).
  - intros k Hk. rewrite Hsizes.
    destruct (String.prefix p k) eqn:E; [| done].
    apply prefix_append in E as [rest ->]. by destruct (Hk rest).
Qed.

(** ** Label extraction and the rotating file name *)

Lemma append_eq_append (a b c d : string) :
  a +:+ b = c +:+ d →
  (∃ y, c = a +:+ y ∧ b = y +:+ d) ∨ (∃ y, a = c +:+ y ∧ d = y +:+ b).
Proof.
  revert c. induction a as [|x a IH]; intros c; sapp.
  - intros ->. left. by exists c.
  - destruct c as [|x' c]; sapp.
    + intros <-. right. by exists (String x a).
    + intros [= <- H]. destruct (IH c H) as [(y & -> & ->)|(y & -> & ->)].
      * left. by exists y.
      * right. by exists y.
Qed.

(** Where the first [c] of both sides is, when [a] has none. *)
Lemma first_char_split c a r y r' :
  no_char c a = true → a +:+ String c r = y +:+ String c r' →
  (y = a ∧ r = r') ∨ (∃ z, y = a +:+ String c z ∧ r = z +:+ String c r').
Proof.
  intros Ha [(z & -> & Hz)|(z & -> & Hz)]%append_eq_append.
  - destruct z as [|c' z]; sapp_in Hz.
    + injection Hz as <-. left. by rewrite append_nil_r.
    + injection Hz as <- ->. right. by exists z.
  - destruct z as [|c' z]; sapp_in Hz.
    + injection Hz as <-. left. by rewrite append_nil_r.
    + injection Hz as <- _. rewrite no_char_append in Ha. simpl in Ha.
      rewrite Ascii.eqb_refl in Ha. simpl in Ha.
      by rewrite andb_false_r in Ha.
Qed.

(** A suffix without [c] cannot reach back over a [c]. *)
Lemma last_char_split c x rest D f :
  no_char c f = true → x +:+ String c rest = D +:+ f →
  ∃ m, rest = m +:+ f ∧ D = x +:+ String c m.
Proof.
  intros Hf [(z & -> & Hz)|(z & -> & Hz)]%append_eq_append.
  - destruct z as [|c' z]; sapp_in Hz.
    + subst f. simpl in Hf. by rewrite Ascii.eqb_refl in Hf.
    + injection Hz as <- ->. by exists z.
  - subst f. rewrite no_char_append in Hf. simpl in Hf.
    rewrite Ascii.eqb_refl in Hf. simpl in Hf. by rewrite andb_false_r in Hf.
Qed.

Lemma segment_unique rs d a b a' b' :
  all_in rs a = true → all_in rs a' = true → in_ranges rs d = false →
  a +:+ String d b = a' +:+ String d b' → a = a' ∧ b = b'.
Proof.
  intros Ha Ha' Hd Heq.
  pose proof (span_segment rs a d b Ha Hd) as H.
  rewrite Heq, span_segment in H by done. by injection H as -> ->.
Qed.

(** A run of [rs] is followed by one character only. *)
Lemma segment_delimiter rs d d' a b a' b' :
  all_in rs a = true → all_in rs a' = true →
  in_ranges rs d = false → in_ranges rs d' = false →
  a +:+ String d b = a' +:+ String d' b' → d = d'.
Proof.
  intros Ha Ha' Hd Hd' Heq.
  pose proof (span_segment rs a d b Ha Hd) as H.
  rewrite Heq, span_segment in H by done. by injection H as -> ->.
Qed.

(** The directories of a container, without the final separator. *)
Lemma log_path_split l rest :
  log_path l rest =
    String "/" (Namespace l +:+ String "_" (Name l +:+ String "_" (UUID l)))
    +:+ String "/" (Container l +:+ String "/" rest).
Proof.
  unfold log_path. by snorm.
Qed.

Lemma log_path_append l a b : log_path l (a +:+ b) = log_path l a +:+ b.
Proof. unfold log_path. by snorm. Qed.

Lemma log_path_inj l l' m m' :
  labels_ok l → labels_ok l' → log_path l m = log_path l' m' → l = l' ∧ m = m'.
Proof.
  intros ([_ Hns] & [_ Hpod] & [_ Huuid] & [_ Hc])
         ([_ Hns'] & [_ Hpod'] & [_ Huuid'] & [_ Hc']).
  unfold log_path. sapp. intros [= H].
  apply (segment_unique name_chars) in H as [H1 H]; [| done..].
  apply (segment_unique name_chars) in H as [H2 H]; [| done..].
  apply (segment_unique uuid_chars) in H as [H3 H]; [| done..].
  apply (segment_unique name_chars) in H as [H4 H]; [| done..].
  split; [| done]. destruct l, l'; simpl in *; congruence.
Qed.

Lemma labels_ok_no_slash l :
  labels_ok l →
  no_char "/" (Namespace l +:+ String "_" (Name l +:+ String "_" (UUID l))) = true
  ∧ no_char "/" (Container l) = true.
Proof.
  intros ([_ Hns] & [_ Hpod] & [_ Huuid] & [_ Hc]).
  rewrite !no_char_append. simpl. rewrite !no_char_append. simpl.
  rewrite (all_in_no_char name_chars "/" (Namespace l)) by done.
  rewrite (all_in_no_char name_chars "/" (Name l)) by done.
  rewrite (all_in_no_char uuid_chars "/" (UUID l)) by done.
  by rewrite (all_in_no_char name_chars "/" (Container l)) by done.
Qed.

(** A later place at which the path continues as a log file lies in what
    follows the container directory of an earlier one. *)
Lemma log_path_later l1 m1 y l2 m2 :
  labels_ok l1 → labels_ok l2 → y ≠ "" →
  log_path l1 m1 = y +:+ log_path l2 m2 → ∃ x, m1 = x +:+ m2.
Proof.
  intros Hok1 Hok2 Hy.
  destruct (labels_ok_no_slash l1 Hok1) as [HT Hc].
  rewrite (log_path_split l1).
  destruct y as [|c0 y]; [done |]. sapp.
  assert (∃ rest2, log_path l2 m2 = String "/" (Namespace l2 +:+ String "_" rest2)
                   ∧ ∃ x2, Namespace l2 +:+ String "_" rest2 = x2 +:+ m2)
    as (rest2 & -> & x2 & Hx2).
  { unfold log_path. sapp. eexists. split; [done |].
    exists (Namespace l2 +:+ "_" +:+ Name l2 +:+ "_" +:+ UUID l2 +:+
            "/" +:+ Container l2 +:+ "/").
    by snorm. }
  intros [= <- H].
  apply first_char_split in H as [[-> H]|(z & -> & H)]; [| | done].
  - (* the container would have to be followed by an underscore *)
    destruct Hok1 as (_ & _ & _ & [_ Hc1]), Hok2 as ([_ Hns2] & _).
    apply (segment_delimiter name_chars) in H; [discriminate H | done..].
  - apply first_char_split in H as [[-> ->]|(z' & -> & ->)]; [| | done].
    + by exists x2.
    + exists (z' +:+ String "/" x2). rewrite Hx2. by snorm.
Qed.

(** A [.log] at the start either lies within the first characters [x]
    or leaves them without a newline. *)
Lemma strip_log_swap c x a b r :
  strip_prefix ".log" (String c (x +:+ a)) = Some r →
  no_char newline x = true ∨
  is_Some (strip_prefix ".log" (String c (x +:+ b))).
Proof.
  destruct x as [|c1 [|c2 [|c3 x]]]; sapp; simpl.
  - by left.
  - destruct (Ascii.eqb c "."); [| done].
    destruct (Ascii.eqb_spec c1 "l") as [->|]; [| done]. by left.
  - destruct (Ascii.eqb c "."); [| done].
    destruct (Ascii.eqb_spec c1 "l") as [->|]; [| done].
    destruct (Ascii.eqb_spec c2 "o") as [->|]; [| done]. by left.
  - destruct (Ascii.eqb c "."); [| done].
    destruct (Ascii.eqb c1 "l"); [| done].
    destruct (Ascii.eqb c2 "o"); [| done].
    destruct (Ascii.eqb c3 "g"); [| done]. right. eauto.
Qed.

(** [.log] on the first line, with another end of the text. *)
Lemma after_log_swap x a b :
  is_Some (after_log (x +:+ a)) → is_Some (after_log b) →
  is_Some (after_log (x +:+ b)).
Proof.
  intros Ha Hb. induction x as [|c x IH]; [done |].
  revert Ha. rewrite !append_cons. cbn [after_log].
  destruct (Ascii.eqb_spec c newline) as [->|Hc]; [done |].
  destruct (after_log (x +:+ a)) as [r|] eqn:E.
  - intros _. destruct (IH ltac:(eauto)) as [r' ->]. eauto.
  - intros [r Hr]. clear IH.
    destruct (strip_log_swap c x a b r Hr) as [Hx|Hs].
    + destruct (after_log_extend x b Hx Hb) as [r' ->]. eauto.
    + by destruct (after_log (x +:+ b)).
Qed.

Lemma log_file_here_intro l rest :
  labels_ok l → is_Some (after_log rest) → log_file_here l (log_path l rest).
Proof.
  intros Hok [r (mid & Hmid & ->)%after_log_Some].
  split; [done |]. by exists mid, r.
Qed.

(** When the text after a place is not cut by a separator, a log file
    found at that place has its container directory before that text. *)
Lemma log_file_here_in_dir l pre suf D f :
  log_file_here l suf → pre +:+ suf = D +:+ f → no_char "/" f = true →
  ∃ m, D = pre +:+ log_path l m ∧ suf = log_path l (m +:+ f) ∧
       is_Some (after_log (m +:+ f)).
Proof.
  intros (Hok & mid & post & Hmid & ->) Heq Hf.
  pose proof (after_log_is_Some mid post Hmid) as Hlog.
  revert Heq Hlog. generalize (mid +:+ ".log" +:+ post). intros R Heq Hlog.
  rewrite log_path_split, <- append_assoc in Heq.
  rewrite <- (append_cons "/" (Container l)), <- append_assoc in Heq.
  apply last_char_split in Heq as (m & -> & ->); [| done].
  exists m. split_and!; [| done..].
  rewrite log_path_split. by snorm.
Qed.

(** Of two places at which two paths with a common directory part
    continue as log files, the earlier one is a match in both paths. *)
Lemma earlier_place_in_both f1 f2 pre1 l1 m1 y l2 m2 :
  labels_ok l1 → labels_ok l2 → y ≠ "" →
  pre1 +:+ log_path l1 m1 = (pre1 +:+ y) +:+ log_path l2 m2 →
  is_Some (after_log (m1 +:+ f1)) → is_Some (after_log (m2 +:+ f2)) →
  log_file_here l1 (y +:+ log_path l2 (m2 +:+ f2)).
Proof.
  intros Hok1 Hok2 Hy Heq H1 H2.
  rewrite append_assoc in Heq. apply String.app_inj in Heq.
  destruct (log_path_later l1 m1 y l2 m2 Hok1 Hok2 Hy Heq) as [x ->].
  rewrite log_path_append, <- append_assoc, <- Heq, <- log_path_append.
  apply log_file_here_intro; [done |].
  rewrite append_assoc in H1 |- *. by apply (after_log_swap x (m2 +:+ f1)).
Qed.

Lemma Parse_same_directory D f1 f2 l1 l2 :
  no_char "/" f1 = true → no_char "/" f2 = true →
  Parse (D +:+ f1) = Some l1 → Parse (D +:+ f2) = Some l2 →
  l1 = l2 ∧ ∃ pre m, D = pre +:+ log_path l1 m.
Proof.
  intros Hf1 Hf2
    (pre1 & suf1 & Heq1 & Hhere1 & Hleft1)%Parse_Some
    (pre2 & suf2 & Heq2 & Hhere2 & Hleft2)%Parse_Some.
  pose proof Hhere1 as [Hok1 _]. pose proof Hhere2 as [Hok2 _].
  symmetry in Heq1, Heq2.
  destruct (log_file_here_in_dir _ _ _ _ _ Hhere1 Heq1 Hf1) as (m1 & HD1 & -> & Hlog1).
  destruct (log_file_here_in_dir _ _ _ _ _ Hhere2 Heq2 Hf2) as (m2 & HD2 & -> & Hlog2).
  split; [| by exists pre1, m1].
  pose proof HD2 as HD. rewrite HD1 in HD.
  destruct (append_eq_append _ _ _ _ HD) as [(y & -> & Hy)|(y & -> & Hy)].
  - destruct (decide (y = "")) as [->|Hne].
    + by apply log_path_inj in Hy as [-> _].
    + destruct (Hleft2 pre1 y l1 eq_refl Hne).
      by apply (earlier_place_in_both f1 f2 pre1 l1 m1 y l2 m2).
  - destruct (decide (y = "")) as [->|Hne].
    + by apply log_path_inj in Hy as [-> _].
    + destruct (Hleft1 pre2 y l2 eq_refl Hne).
      by apply (earlier_place_in_both f2 f1 pre2 l2 m2 y l1 m1).
Qed.

Section SameSeries.
Variable Join : string → string → string.

(** C3: two paths that both match the log-file pattern and differ only
    in the last file-name segment get equal labels, the labels are read
    from the directory part that the paths share and not from the file
    name, and [Update] on either path accumulates into the series of these
    labels and into no other. *)
Theorem Parse_ignores_rotation_name dir f1 f2 l1 l2 :
  no_char "/" f1 = true → no_char "/" f2 = true →
  Parse (dir +:+ "/" +:+ f1) = Some l1 →
  Parse (dir +:+ "/" +:+ f2) = Some l2 →
  l1 = l2 ∧
  (∃ pre m, dir +:+ "/" = pre +:+ log_path l1 m) ∧
  (∀ path fuel fs info w,
     path = dir +:+ "/" +:+ f1 ∨ path = dir +:+ "/" +:+ f2 →
     Stat fs path = Val info → 0 ≤ fi_Size info →
     ∃ w', Update Join (S fuel) fs path w = Done w' ∧
       is_Some (metrics w' !! l1) ∧
       ∀ l', l' ≠ l1 → metrics w' !! l' = metrics w !! l').
Proof.
  intros Hf1 Hf2 H1 H2.
  destruct (Parse_same_directory (dir +:+ "/") f1 f2 l1 l2) as [<- Hdir];
    [done | done | by rewrite append_assoc..|].
  split_and!; [done..|].
  intros path fuel fs info w Hpath Hstat Hsize.
  assert (Parse path = Some l1) as Hl by by destruct Hpath as [->| ->].
  eexists. split; [by apply Update_file |]. simpl. split.
  - rewrite lookup_insert_eq. eauto.
  - intros l' Hne. by rewrite lookup_insert_ne.
Qed.
End SameSeries.

(** ** Where label extraction matches *)

(** No match starts in a prefix without underscore. *)
Lemma no_underscore_no_match pre p1 p2 l' rest :
  no_char "_" pre = true → pre = p1 +:+ p2 → p2 ≠ "" →
  ¬ log_file_here l' (p2 +:+ String "/" rest).
Proof.
  intros Hpre -> Hp2 (Hok & mid & post & _ & Heq).
  rewrite no_char_append in Hpre. apply andb_true_iff in Hpre as [_ Hpre].
  destruct Hok as ([_ Hns] & _).
  pose proof (all_in_no_char name_chars "/" _ in_name_chars_slash Hns) as Hslash.
  unfold log_path in Heq. destruct p2 as [|c p2]; [done |].
  sapp_in Heq. injection Heq as -> Heq.
  simpl in Hpre.
  apply append_eq_append in Heq as [(y & Hy & Hz)|(y & Hy & Hz)].
  - rewrite Hy, no_char_append in Hslash.
    destruct y as [|c y]; sapp_in Hz; [done |].
    injection Hz as <- _. simpl in Hslash. by rewrite andb_false_r in Hslash.
  - rewrite Hy, no_char_append in Hpre.
    destruct y as [|c y]; sapp_in Hz; [done |].
    injection Hz as <- _. simpl in Hpre. by rewrite andb_false_r in Hpre.
Qed.

(** C9, amended: label extraction is an unanchored, leftmost match in
    which the part after the container directory may hold separators but
    no newline. A path is accepted exactly when somewhere in it
    [/<ns>_<pod>_<uuid>/<container>/] is followed, with no newline in
    between, by [.log]; the labels are those of the leftmost such place.
    In particular, after a prefix without underscore such a place gives
    its own labels, whatever directories lie between the container
    directory and the file and whatever precedes the pod directory. *)
Theorem Parse_accepts_leftmost_occurrence path :
  (is_Some (Parse path) ↔
     ∃ pre l mid post, labels_ok l ∧ no_char newline mid = true ∧
       path = pre +:+ log_path l (mid +:+ ".log" +:+ post)) ∧
  (∀ l, Parse path = Some l ↔
     ∃ pre suf, path = pre +:+ suf ∧ log_file_here l suf ∧
       ∀ p1 p2 l', pre = p1 +:+ p2 → p2 ≠ "" →
                   ¬ log_file_here l' (p2 +:+ suf)) ∧
  (∀ pre l mid post,
     path = pre +:+ log_path l (mid +:+ ".log" +:+ post) →
     labels_ok l → no_char newline mid = true → no_char "_" pre = true →
     Parse path = Some l).
Proof.
  split_and!.
  - split.
    + intros [l (pre & suf & -> & (Hok & mid & post & Hmid & ->) & _)%Parse_Some].
      by exists pre, l, mid, post.
    + intros (pre & l & mid & post & Hok & Hmid & ->).
      destruct (Parse _) eqn:E; [eauto |].
      destruct (proj1 (Parse_None _) E pre _ l eq_refl).
      split; [done |]. by exists mid, post.
  - intros l. apply Parse_Some.
  - intros pre l mid post -> Hok Hmid Hpre.
    apply Parse_Some. eexists pre, _. split_and!; [done | |].
    + split; [done |]. by exists mid, post.
    + intros p1 p2 l' Hp Hne. unfold log_path at 1. sapp.
      by apply (no_underscore_no_match pre p1 p2).
Qed.

(** C9 as it was stated fails on two kinds of paths: a newline between
    the container directory and [.log] makes the path unacceptable, and
    of two places that fit, the left one gives the labels. *)
Lemma Parse_newline_and_second_occurrence :
  (labels_ok labels_abcd ∧
   Parse ("" +:+ log_path labels_abcd ("x" +:+ String newline "y" +:+ ".log"))
   = None) ∧
  (labels_ok labels_ef0g ∧
   Parse ("/a_b_c/d" +:+ log_path labels_ef0g ("x" +:+ ".log"))
   = Some labels_abcd ∧
   labels_abcd ≠ labels_ef0g) ∧
  ¬ (∀ pre l mid, labels_ok l →
       Parse (pre +:+ log_path l (mid +:+ ".log")) = Some l).
Proof.
  assert (labels_ok labels_abcd) as Hok by (repeat split; done).
  assert (Parse ("" +:+ log_path labels_abcd
                          ("x" +:+ String newline "y" +:+ ".log")) = None)
    as Hnone by by vm_compute.
  split_and!.
  - done.
  - done.
  - repeat split; done.
  - by vm_compute.
  - done.
  - intros H. specialize (H "" labels_abcd ("x" +:+ String newline "y") Hok).
    rewrite append_assoc in H. by rewrite Hnone in H.
Qed.

(** ** The statements at concrete inputs *)

Lemma fs_of_sizes_nonneg files dirs :
  Forall (fun kv => 0 ≤ kv.2) files → sizes_nonneg (fs_of files dirs).
Proof.
  intros Hfiles path info. unfold fs_of, assoc. simpl.
  destruct (List.find _ files) as [[k n]|] eqn:E; simpl.
  - intros [= <-]. simpl. apply find_some in E as [Hin _].
    rewrite Forall_forall in Hfiles.
    by apply (Hfiles (k, n)), list_elem_of_In.
  - destruct (List.find _ dirs); simpl; [| done]. by intros [= <-].
Qed.

Lemma fs_of_sizes_exact files dirs :
  Forall (fun kv => 0 ≤ kv.2 ≤ 2 ^ 53) files → sizes_exact (fs_of files dirs).
Proof.
  intros Hfiles path info. unfold fs_of, assoc. simpl.
  destruct (List.find _ files) as [[k n]|] eqn:E; simpl.
  - intros [= <-]. simpl. apply find_some in E as [Hin _].
    rewrite Forall_forall in Hfiles.
    by apply (Hfiles (k, n)), list_elem_of_In.
  - destruct (List.find _ dirs); simpl; [| done]. intros [= <-]. simpl. lia.
Qed.

Lemma Update_credits_growth_or_whole_size_witness :
  ∃ w', Update join_slash 1 fs_truncated log0 w_hello = Done w' ∧
        metrics w' = <[log0_labels := 6 + 2]> (metrics w_hello) ∧
        sizes w' = <[log0 := 2]> (sizes w_hello).
Proof.
  destruct (Update_credits_growth_or_whole_size join_slash 0 fs_truncated log0
              log0_labels (mkFileInfo log0 2) w_hello)
    as (w' & Hrun & _ & Htrunc & Hsizes).
  - reflexivity.
  - reflexivity.
  - simpl. lia.
  - by vm_compute.
  - exists w'. split_and!; [exact Hrun | | exact Hsizes].
    apply Htrunc. vm_compute. reflexivity.
Defined.

Lemma Updates_never_decrease_a_counter_witness :
  (∀ msg, Updates join_slash 4 [(fs_hello, log0); (fs_truncated, pods)] w_hello
          ≠ Panic msg) ∧
  (∀ w', Updates join_slash 4 [(fs_hello, log0); (fs_truncated, pods)] w_hello
         = Done w' →
     ∀ l v, metrics w_hello !! l = Some v →
       ∃ v', metrics w' !! l = Some v' ∧ v ≤ v').
Proof.
  apply (Updates_never_decrease_a_counter join_slash 4
           [(fs_hello, log0); (fs_truncated, pods)] w_hello).
  intros c Hc. apply list_elem_of_In in Hc.
  destruct Hc as [<-|[<-|[]]]; apply fs_of_sizes_nonneg;
    repeat constructor; simpl; lia.
Defined.

Lemma Parse_ignores_rotation_name_witness :
  ∃ pre m, "/var/log/pods/ns_pod_0a1b/c" +:+ "/" = pre +:+ log_path log0_labels m.
Proof.
  apply (Parse_ignores_rotation_name join_slash "/var/log/pods/ns_pod_0a1b/c"
           "0.log" "1.log" log0_labels log0_labels).
  - reflexivity.
  - reflexivity.
  - vm_compute. reflexivity.
  - vm_compute. reflexivity.
Defined.

Lemma Remove_cleans_up_pod_directories_only_witness :
  Remove_in_order (keys_of w_hello) pod_dir w_hello = Remove pod_dir w_hello ∧
  Remove_in_order (keys_of w_hello) log0 w_hello = w_hello.
Proof.
  destruct (Remove_cleans_up_pod_directories_only (keys_of w_hello) pod_dir w_hello)
    as (Horder & _); [reflexivity |].
  destruct (Remove_cleans_up_pod_directories_only (keys_of w_hello) log0 w_hello)
    as (_ & _ & Hnone & _); [reflexivity |].
  split; [exact Horder |]. apply Hnone. vm_compute. reflexivity.
Defined.

Lemma Update_skips_failed_stat_witness :
  ∃ w', Update join_slash 1 (fs_failing (ErrOther "permission denied")) log0 w_hello
        = Done w' ∧
        sizes w' = sizes w_hello ∧ metrics w' = metrics w_hello.
Proof.
  destruct (Update_skips_failed_stat join_slash 0
              (fs_failing (ErrOther "permission denied")) log0 log0_labels
              (ErrOther "permission denied") w_hello)
    as (w' & Hrun & Hsizes & Hmetrics & _).
  - vm_compute. reflexivity.
  - reflexivity.
  - exists w'. split_and!; assumption.
Defined.

Lemma Update_recurses_into_directories_witness :
  Parse pods = None ∧
  ∃ w', Update join_slash 4 fs_hello pods New_state = Done w'.
Proof.
  assert (Parse pods = None) as Hpods by (vm_compute; reflexivity).
  split; [exact Hpods |].
  destruct (Update_recurses_into_directories join_slash fs_hello pods New_state
              Hpods) as (_ & _ & Hreturns).
  apply (Hreturns 3%nat).
  - apply fs_of_sizes_nonneg. repeat constructor. simpl. lia.
  - eapply scan_dir; [exact Hpods | reflexivity |].
    intros info ->%list_elem_of_singleton.
    eapply scan_dir; [vm_compute; reflexivity | reflexivity |].
    intros info ->%list_elem_of_singleton.
    eapply scan_dir; [vm_compute; reflexivity | reflexivity |].
    intros info ->%list_elem_of_singleton.
    eapply scan_file. vm_compute. reflexivity.
Defined.

Lemma Parse_accepts_leftmost_occurrence_witness :
  Parse log0 = Some log0_labels.
Proof.
  apply (Parse_accepts_leftmost_occurrence log0) with (pre := pods)
    (mid := "0") (post := "").
  - reflexivity.
  - repeat split; (discriminate || reflexivity).
  - reflexivity.
  - reflexivity.
Defined.

Lemma Remove_prefix_is_lexical_witness :
  sizes (Remove pod_dir w_siblings) !! sibling_log = None ∧
  metrics (Remove pod_dir w_siblings) !! mkLabels "ns" "pod" "0a1bcd" "c" = None.
Proof.
  destruct (Remove_prefix_is_lexical pod_dir w_siblings) as (_ & _ & Hsib & _).
  - eexists. vm_compute. reflexivity.
  - destruct (Hsib "cd" "c/0.log" (mkLabels "ns" "pod" "0a1bcd" "c"))
      as [Hsize Hseries].
    split; [exact Hsize |]. apply Hseries.
    + eexists. vm_compute. reflexivity.
    + vm_compute. reflexivity.
Defined.

(** ** The scenarios of the package's tests *)

(** The paths of [TestWatchesFiles] and their labels. *)
Example labels_of_test_paths :
  Parse "/tmp/TestWatchesFiles1/before_loki-receiver_8cdbeb1b-f8bd-4c56-97d0-1d984060a846/loki-receiver/0.log"
  = Some (mkLabels "before" "loki-receiver"
            "8cdbeb1b-f8bd-4c56-97d0-1d984060a846" "loki-receiver") ∧
  Parse "/tmp/TestWatchesFiles1/after_loki-server_efc2acf0-387d-4274-975f-d5f77a4ffb3e/loki-server/1.log"
  = Some (mkLabels "after" "loki-server"
            "efc2acf0-387d-4274-975f-d5f77a4ffb3e" "loki-server") ∧
  is_Some (FindStringSubmatch logPodDir
    "/tmp/TestWatchesFiles1/before_loki-receiver_8cdbeb1b-f8bd-4c56-97d0-1d984060a846") ∧
  Parse "/tmp/TestWatchesFiles1" = None.
Proof. split_and!; try (vm_compute; reflexivity). eexists. vm_compute. reflexivity. Qed.

(** A log file of six bytes is there before the watcher starts, which
    credits it while it scans the root; six more bytes are appended. *)
Example scenario_existing_file_then_append :
  Update join_slash 4 fs_hello pods New_state
  = Done (mkWatcher {[ log0_labels := 6 ]} {[ log0 := 6 ]}
            [LogInfo 3 "updated metric" log0 6]) ∧
  ∃ w', Watch join_slash 4
          [(fs_of [(log0, 12)] tree, Val (fsnotify.mkEvent log0 fsnotify.Write))]
          w_hello = Done (Blocked, w') ∧
        metrics w' = {[ log0_labels := 12 ]} ∧ sizes w' = {[ log0 := 12 ]}.
Proof.
  split; [vm_compute; reflexivity |].
  eexists. split_and!; [vm_compute; reflexivity | reflexivity..].
Qed.

(** [1.log] appears with eight bytes, then six bytes are written to its
    sibling [0.log]: both are credited to the one series of the container. *)
Example scenario_two_files_one_series :
  let log1 := "/var/log/pods/ns_pod_0a1b/c/1.log" in
  let fs1 := fs_of [(log1, 8)] tree in
  let fs2 := fs_of [(log1, 8); (log0, 6)] tree in
  ∃ w', Watch join_slash 4
          [(fs1, Val (fsnotify.mkEvent log1 fsnotify.Create));
           (fs2, Val (fsnotify.mkEvent log0 fsnotify.Create));
           (fs2, Val (fsnotify.mkEvent log0 fsnotify.Write))]
          New_state = Done (Blocked, w') ∧
        metrics w' = {[ log0_labels := 14 ]} ∧
        sizes w' = {[ log0 := 6; log1 := 8 ]}.
Proof.
  intros log1 fs1 fs2.
  eexists. split_and!; [vm_compute; reflexivity | reflexivity..].
Qed.

(** The pod directory is removed: the series is gone; the removal of the
    log file alone changes nothing; the end of the stream ends the loop. *)
Example scenario_remove_pod_directory :
  Watch join_slash 4
    [(fs_of [] [], Val (fsnotify.mkEvent log0 fsnotify.Remove));
     (fs_of [] [], Err EOF)] w_hello
  = Done (Returned None, w_hello) ∧
  Watch join_slash 4
    [(fs_of [] [], Val (fsnotify.mkEvent log0 fsnotify.Remove));
     (fs_of [] [], Val (fsnotify.mkEvent pod_dir fsnotify.Remove));
     (fs_of [] [], Err EOF)] w_hello
  = Done (Returned None, New_state).
Proof. split; vm_compute; reflexivity. Qed.

(** Copy-truncate rotation: a file seen with six bytes and then with two
    is credited with two more bytes. *)
Example scenario_truncation :
  ∃ w', Update join_slash 1 fs_truncated log0 w_hello = Done w' ∧
        metrics w' = {[ log0_labels := 8 ]} ∧ sizes w' = {[ log0 := 2 ]}.
Proof. eexists. split_and!; [vm_compute; reflexivity | reflexivity..]. Qed.

(** * Further properties of the package *)

(** ** Label extraction *)

Lemma append_cancel_r (a b c : string) : a +:+ c = b +:+ c → a = b.
Proof.
  intros [(y & -> & Hy)|(y & -> & Hy)]%append_eq_append.
  - assert (y = "") as ->; [| by rewrite append_nil_r].
    apply (f_equal String.length) in Hy. rewrite length_append in Hy.
    destruct y; [done | simpl in Hy; lia].
  - assert (y = "") as ->; [| by rewrite append_nil_r].
    apply (f_equal String.length) in Hy. rewrite length_append in Hy.
    destruct y; [done | simpl in Hy; lia].
Qed.

(** X1: the labels that [Parse] returns are well formed: each of the four
    is non-empty, namespace, pod name and container are made of
    [[a-z0-9-]] and the UUID of [[a-f0-9-]], so that no label holds a
    separator or an underscore; and the match that [Parse] indexes with 1
    to 4 has five entries. *)
Theorem Parse_labels_well_formed path l :
  Parse path = Some l →
  labels_ok l ∧
  (∀ s, s ∈ [Namespace l; Name l; UUID l; Container l] →
        s ≠ "" ∧ no_char "/" s = true ∧ no_char "_" s = true) ∧
  (∃ whole, FindStringSubmatch logFile path
            = Some [whole; Namespace l; Name l; UUID l; Container l]).
Proof.
  intros Hl.
  pose proof Hl as (pre & suf & -> & [Hok _] & _)%Parse_Some.
  split_and!; [done | |].
  - destruct Hok as ([? Hns] & [? Hpod] & [? Huuid] & [? Hc]).
    intros s Hs. apply list_elem_of_In in Hs.
    destruct Hs as [<-|[<-|[<-|[<-|[]]]]]; split_and!; try done;
      first [ by apply (all_in_no_char name_chars)
            | by apply (all_in_no_char uuid_chars) ].
  - unfold Parse in Hl.
    destruct (FindStringSubmatch logFile (pre +:+ suf)) as [m|] eqn:E; [| done].
    pose proof E as (p & s & _ & Hm & _)%FindStringSubmatch_Some.
    apply match_here_logFile in Hm as (l' & mid & r & _ & _ & _ & ->).
    injection Hl as <-. simpl. eauto.
Qed.

(** X2: whatever is appended to a path that [Parse] accepts, the longer
    path is accepted with the same labels: a rotated file such as
    [0.log.20230101] or [0.log.gz] counts for the container of [0.log]. *)
Theorem Parse_append_stable path suffix l :
  Parse path = Some l → Parse (path +:+ suffix) = Some l.
Proof.
  intros (pre & suf & -> & (Hok & mid & post & Hmid & ->) & Hleft)%Parse_Some.
  apply Parse_Some. exists pre, (log_path l (mid +:+ ".log" +:+ post) +:+ suffix).
  split_and!.
  - by rewrite append_assoc.
  - split; [done |]. exists mid, (post +:+ suffix).
    split; [done |]. rewrite <- log_path_append. by rewrite !append_assoc.
  - intros p1 p2 l' Hp Hne (Hok' & mid' & post' & Hmid' & Heq).
    pose proof (after_log_is_Some mid post Hmid) as Hlog.
    pose proof (after_log_is_Some mid' post' Hmid') as Hlog'.
    revert Hleft Heq Hlog Hlog'.
    generalize (mid +:+ ".log" +:+ post) (mid' +:+ ".log" +:+ post').
    intros M M' Hleft Heq Hlog Hlog'.
    rewrite <- log_path_append in Heq. symmetry in Heq.
    destruct (log_path_later l' M' p2 l (M +:+ suffix) Hok' Hok Hne Heq)
      as [x ->].
    apply (Hleft p1 p2 l' Hp Hne).
    assert (p2 +:+ log_path l M = log_path l' (x +:+ M)) as ->.
    { rewrite !log_path_append in Heq. rewrite <- !append_assoc in Heq.
      apply append_cancel_r in Heq. by rewrite log_path_append. }
    apply log_file_here_intro; [done |].
    by apply (after_log_swap x (M +:+ suffix)).
Qed.

(** ** Paths that [Remove] ignores *)

(** X9: [Remove] does nothing on a path whose last segment has no
    underscore, such as the root or the directory of a container: removing
    only a container directory leaves its size entries and its series. *)
Theorem Remove_ignores_container_directory dir seg w :
  no_char "_" seg = true → Remove (dir +:+ "/" +:+ seg) w = w.
Proof.
  intros Hseg. unfold Remove, Remove_in_order.
  destruct (FindStringSubmatch logPodDir (dir +:+ "/" +:+ seg)) eqn:E; [| done].
  exfalso.
  assert (is_Some (FindStringSubmatch logPodDir (dir +:+ "/" +:+ seg))) as H
    by eauto.
  apply logPodDir_matches in H
    as (pre & ns & pod & uuid & [_ Hns] & [_ Hpod] & [_ Huuid] & Heq).
  assert (dir +:+ String "/" seg
          = (pre +:+ "/") +:+ (ns +:+ String "_" (pod +:+ String "_" uuid)))
    as Heq'.
  { rewrite append_assoc. exact Heq. }
  apply last_char_split in Heq' as (m & -> & _).
  - rewrite !no_char_append in Hseg. simpl in Hseg.
    by rewrite !andb_false_r in Hseg.
  - rewrite !no_char_append. simpl. rewrite !no_char_append. simpl.
    rewrite (all_in_no_char name_chars "/" ns) by done.
    rewrite (all_in_no_char name_chars "/" pod) by done.
    by rewrite (all_in_no_char uuid_chars "/" uuid) by done.
Qed.

(** ** What [Remove] leaves *)

Lemma Remove_loop_metrics_Some path keys w l v :
  metrics (Remove_loop path keys w) !! l = Some v → metrics w !! l = Some v.
Proof.
  unfold Remove_loop. revert w.
  induction keys as [|k keys IH]; intros w; cbn [foldl]; [done |].
  intros H%IH. rewrite Remove_key_metrics in H. by case_decide.
Qed.

(** X6: [Remove] only deletes. Every size entry and every series that is
    there after [Remove] was there before with the same value, and
    [Remove] logs nothing. *)
Theorem Remove_only_deletes path w :
  sizes (Remove path w) ⊆ sizes w ∧
  metrics (Remove path w) ⊆ metrics w ∧
  logged (Remove path w) = logged w.
Proof.
  unfold Remove, Remove_in_order.
  destruct (FindStringSubmatch logPodDir path) as [m|]; [| done].
  split_and!.
  - apply map_subseteq_spec. intros k v. rewrite loop_sizes. by case_decide.
  - apply map_subseteq_spec. intros l v. apply Remove_loop_metrics_Some.
  - apply loop_logged.
Qed.

(** X7: [Remove] is idempotent: a second [Remove] of the same path, as
    after a repeated event, changes nothing more. *)
Theorem Remove_idempotent path w :
  Remove path (Remove path w) = Remove path w.
Proof.
  destruct (FindStringSubmatch logPodDir path) as [m|] eqn:E.
  - assert (is_Some (FindStringSubmatch logPodDir path)) as Hp by eauto.
    destruct (Remove_in_order_pod_dir (keys_of w) path w ltac:(done) Hp)
      as (Hsizes & _ & _).
    destruct (Remove_in_order_pod_dir (keys_of (Remove path w)) path
                (Remove path w) ltac:(done) Hp) as (Hsizes' & _ & Hkept').
    fold (Remove path w) in Hsizes.
    fold (Remove path (Remove path w)) in Hsizes', Hkept'.
    apply Watcher_eq.
    + apply map_eq. intros l. apply Hkept'. intros k [v Hk] Hpre.
      by rewrite Hsizes, Hpre in Hk.
    + apply map_eq. intros k. rewrite Hsizes', Hsizes.
      by destruct (String.prefix path k).
    + unfold Remove at 1, Remove_in_order. rewrite E. apply loop_logged.
  - unfold Remove, Remove_in_order. by rewrite E.
Qed.

Section RemoveThenUpdate.
Variable Join : string → string → string.

(** X8: after the directory of its pod was removed, a log file that the
    watcher had followed counts afresh: the next [Update] of the file,
    of a length of at most 2^53 bytes, stores its length and starts the
    series of its container again at that length, whatever had been
    counted before. *)
Theorem Update_after_Remove_counts_afresh fuel fs p k l v info w :
  is_Some (FindStringSubmatch logPodDir p) →
  sizes w !! k = Some v → String.prefix p k = true → Parse k = Some l →
  Stat fs k = Val info → 0 ≤ fi_Size info ≤ 2 ^ 53 →
  ∃ w', Update Join (S fuel) fs k (Remove p w) = Done w' ∧
    metrics w' !! l = Some (fi_Size info) ∧
    sizes w' !! k = Some (fi_Size info).
Proof.
  intros Hp Hk Hpre Hl Hstat Hsize.
  destruct (Remove_in_order_pod_dir (keys_of w) p w ltac:(done) Hp)
    as (Hsizes & Hdel & _).
  fold (Remove p w) in Hsizes, Hdel.
  eexists. split; [apply Update_file; [done | done | lia] |].
  cbn [metrics sizes]. rewrite float64_exact by lia.
  rewrite !lookup_insert_eq, Hsizes, Hpre, (Hdel k l) by eauto. simpl.
  rewrite credit_exact by (done || lia).
  destruct (Z.leb_spec 0 (fi_Size info)); [| lia].
  split; [f_equal; lia | done].
Qed.
End RemoveThenUpdate.

(** ** What every returning [Update] keeps *)

Lemma for_each_Done_preserves {A S} (P : S → S → Prop) (f : A → S → exec S) l s s' :
  (∀ s, P s s) → (∀ s1 s2 s3, P s1 s2 → P s2 s3 → P s1 s3) →
  (∀ a s s', a ∈ l → f a s = Done s' → P s s') →
  for_each f l s = Done s' → P s s'.
Proof.
  intros Hrefl Htrans. revert s. induction l as [|a l IH]; intros s Hf; simpl.
  - intros [= <-]. apply Hrefl.
  - destruct (f a s) as [s1| |] eqn:E; simpl; [| done..].
    intros H. apply (Htrans s s1 s').
    + apply (Hf a); [by left | done].
    + apply IH; [| done]. intros; eapply Hf; [by right | done].
Qed.

Lemma counter_Add_Done_inv l v (m m' : CounterVec) :
  counter_Add l v (GetMetricWithLabelValues l m) = Done m' →
  0 ≤ v ∧ m' = <[l := default 0 (m !! l) + v]> m.
Proof.
  unfold counter_Add. destruct (Z.ltb_spec v 0); [done |].
  intros [= <-]. by rewrite alter_GetMetric.
Qed.

Section UpdateInvariants.
Variable Join : string → string → string.

(** The two ways in which [Update] returns on a log file. *)
Lemma Update_file_inv fuel fs path l w w' :
  Parse path = Some l → Update Join (S fuel) fs path w = Done w' →
  (∃ err, Stat fs path = Err err ∧ metrics w' = metrics w ∧ sizes w' = sizes w)
  ∨ (∃ info, Stat fs path = Val info ∧
       0 ≤ credit (default 0 (sizes w !! path)) (float64 (fi_Size info)) ∧
       metrics w' = <[l := default 0 (metrics w !! l)
                           + credit (default 0 (sizes w !! path))
                                    (float64 (fi_Size info))]>
                      (metrics w) ∧
       sizes w' = <[path := float64 (fi_Size info)]> (sizes w)).
Proof.
  intros Hl. simpl. rewrite Hl.
  destruct (Stat fs path) as [info|err].
  - destruct (counter_Add _ _ _) as [m'| |] eqn:E; simpl; [| done..].
    apply counter_Add_Done_inv in E as [Hv ->].
    intros [= <-]. right. by exists info.
  - intros [= <-]. left. exists err. by destruct (IsNotExist err).
Qed.

Lemma Update_Done_preserves (P : Watcher → Watcher → Prop) fs :
  (∀ w, P w w) → (∀ w1 w2 w3, P w1 w2 → P w2 w3 → P w1 w3) →
  (∀ fuel path l w w',
     Parse path = Some l → Update Join (S fuel) fs path w = Done w' → P w w') →
  ∀ fuel path w w', Update Join fuel fs path w = Done w' → P w w'.
Proof.
  intros Hrefl Htrans Hfile fuel.
  induction fuel as [|fuel IH]; intros path w w'; [done |].
  destruct (Parse path) as [l|] eqn:Hl; [by apply (Hfile fuel path l) |].
  simpl. rewrite Hl.
  destruct (ReadDir fs path) as [infos|err].
  - apply for_each_Done_preserves; [done..|]. intros info s s' _. apply IH.
  - intros [= <-]. apply Hrefl.
Qed.

(** [Update] returns or runs out of fuel when file lengths are not
    negative, and then keeps what the returning calls keep. *)
Lemma Update_keeps (I : Watcher → Prop) fs :
  sizes_nonneg fs →
  (∀ fuel path l w w',
     Parse path = Some l → Update Join (S fuel) fs path w = Done w' →
     I w → I w') →
  ∀ fuel path w, I w →
    match Update Join fuel fs path w with
    | Done w' => I w' | Panic _ => False | OutOfFuel => True
    end.
Proof.
  intros Hfs Hfile fuel path w Hw.
  pose proof (Update_counters_le Join fuel fs path w Hfs) as Hle.
  destruct (Update Join fuel fs path w) as [w'| |] eqn:E; [| done..].
  revert Hw. apply (Update_Done_preserves (fun w w' => I w → I w') fs)
    with (fuel := fuel) (path := path); [tauto | tauto | | done].
  intros. by eapply Hfile.
Qed.

Lemma Watch_keeps (I : Watcher → Prop) fuel script w :
  (∀ fs path w, fs ∈ script.*1 → I w →
     match Update Join fuel fs path w with
     | Done w' => I w' | Panic _ => False | OutOfFuel => True
     end) →
  (∀ path w, I w → I (Remove path w)) →
  I w →
  match Watch Join fuel script w with
  | Done x => I x.2 | Panic _ => False | OutOfFuel => True
  end.
Proof.
  intros HU HR. revert w.
  induction script as [|[fs r] script IH]; intros w Hw; [done |].
  rewrite Watch_cons.
  assert (∀ fs path w, fs ∈ script.*1 → I w →
            match Update Join fuel fs path w with
            | Done w' => I w' | Panic _ => False | OutOfFuel => True
            end) as HU'.
  { intros fs' path' w1 Hin. apply HU. by right. }
  destruct r as [e|err]; [| done].
  destruct (decide _).
  - apply IH; [done |]. by apply HR.
  - pose proof (HU fs (fsnotify.Name e) w ltac:(by left) Hw) as Hstep.
    destruct (Update Join fuel fs (fsnotify.Name e) w) as [w1| |];
      [| done..].
    simpl. by apply IH.
Qed.

Lemma sizes_parse_Update_file fuel fs path l w w' :
  Parse path = Some l → Update Join (S fuel) fs path w = Done w' →
  sizes_parse w → sizes_parse w'.
Proof.
  intros Hl [(err & _ & _ & Hs)|(info & _ & Hc & _ & Hs)]%(Update_file_inv _ _ _ l) Hw;
    [| | done]; intros k v; rewrite Hs; [apply Hw |].
  destruct (decide (path = k)) as [<-|Hne].
  - rewrite lookup_insert_eq. intros [= <-]. split; [eauto |].
    revert Hc. unfold credit. generalize (float64 (fi_Size info)) as size.
    intros size. destruct (sizes w !! path) as [v0|] eqn:E; simpl.
    + destruct (Hw path v0 E) as [_ ?].
      destruct (Z.leb_spec v0 size); lia.
    + destruct (Z.leb_spec 0 size); lia.
  - rewrite lookup_insert_ne by done. apply Hw.
Qed.

Lemma sizes_parse_Remove path w : sizes_parse w → sizes_parse (Remove path w).
Proof.
  intros Hw k v. unfold Remove, Remove_in_order.
  destruct (FindStringSubmatch logPodDir path) as [m|]; [| apply Hw].
  rewrite loop_sizes. case_decide; [done | apply Hw].
Qed.
End UpdateInvariants.

(** ** The sum of the stored sizes *)

Lemma stored_bytes_comm l (j1 j2 : string) (z1 z2 y : Z) :
  (if decide (Parse j1 = Some l) then z1 + (if decide (Parse j2 = Some l) then z2 + y else y)
   else (if decide (Parse j2 = Some l) then z2 + y else y))
  = (if decide (Parse j2 = Some l) then z2 + (if decide (Parse j1 = Some l) then z1 + y else y)
     else (if decide (Parse j1 = Some l) then z1 + y else y)).
Proof. repeat case_decide; lia. Qed.

Lemma stored_bytes_empty l : stored_bytes l ∅ = 0.
Proof. apply map_fold_empty. Qed.

Lemma stored_bytes_insert_None l (m : gmap string Z) k v :
  m !! k = None →
  stored_bytes l (<[k := v]> m)
  = (if decide (Parse k = Some l) then v else 0) + stored_bytes l m.
Proof.
  intros Hk. unfold stored_bytes.
  rewrite map_fold_insert_L; [by case_decide | | done].
  intros. apply stored_bytes_comm.
Qed.

Lemma stored_bytes_delete l (m : gmap string Z) k v :
  m !! k = Some v →
  stored_bytes l m
  = (if decide (Parse k = Some l) then v else 0) + stored_bytes l (delete k m).
Proof.
  intros Hk. unfold stored_bytes.
  rewrite (map_fold_delete_L _ _ k v m); [by case_decide | | done].
  intros. apply stored_bytes_comm.
Qed.

Lemma stored_bytes_insert l (m : gmap string Z) k v :
  stored_bytes l (<[k := v]> m)
  = stored_bytes l m
    + (if decide (Parse k = Some l) then v - default 0 (m !! k) else 0).
Proof.
  destruct (m !! k) as [old|] eqn:E; simpl.
  - rewrite <- insert_delete_eq, stored_bytes_insert_None
      by apply lookup_delete_eq.
    rewrite (stored_bytes_delete l m k old E). case_decide; lia.
  - rewrite stored_bytes_insert_None by done. case_decide; lia.
Qed.

Lemma credit_same size : credit size size = 0.
Proof.
  unfold credit, float64_sub. destruct (Z.leb_spec size size); [| lia].
  by rewrite Z.sub_diag.
Qed.

Lemma credit_ge lastSize size :
  0 ≤ lastSize → size ≤ 2 ^ 53 → size - lastSize ≤ credit lastSize size.
Proof.
  unfold credit. intros. destruct (Z.leb_spec lastSize size); [| lia].
  rewrite float64_sub_exact; lia.
Qed.

Section WholeRuns.
Variable Join : string → string → string.

Lemma Updates_Done_preserves (P : Watcher → Watcher → Prop) fuel calls w w' :
  (∀ w, P w w) → (∀ w1 w2 w3, P w1 w2 → P w2 w3 → P w1 w3) →
  (∀ fs fuel path l w w',
     fs ∈ calls.*1 →
     Parse path = Some l → Update Join (S fuel) fs path w = Done w' → P w w') →
  Updates Join fuel calls w = Done w' → P w w'.
Proof.
  intros Hrefl Htrans Hfile. unfold Updates.
  apply for_each_Done_preserves; [done..|].
  intros [fs path] s s' Hin. simpl.
  apply Update_Done_preserves; [done..|].
  intros. eapply Hfile; [| done..].
  apply list_elem_of_fmap. by exists (fs, path).
Qed.

(** X3: [Update] never deletes a size entry: every path that has an entry
    keeps one through any sequence of [Update] calls, also when its file
    is gone and its stat fails. *)
Theorem Updates_keep_size_entries fuel calls w w' :
  Updates Join fuel calls w = Done w' →
  ∀ k, is_Some (sizes w !! k) → is_Some (sizes w' !! k).
Proof.
  apply (Updates_Done_preserves
           (fun w w' => ∀ k, is_Some (sizes w !! k) → is_Some (sizes w' !! k))).
  - done.
  - intros w1 w2 w3 H12 H23 k Hk. by apply H23, H12.
  - intros fs n path l w1 w2 _ Hl
      [(err & _ & _ & Hs)|(info & _ & _ & _ & Hs)]%(Update_file_inv _ _ _ _ l) k;
      [| | done]; rewrite Hs; [done |].
    intros Hk. destruct (decide (path = k)) as [<-|Hne].
    + rewrite lookup_insert_eq. eauto.
    + by rewrite lookup_insert_ne.
Qed.

(** X4: when file lengths are not negative, [Watch] never panics, and
    from a watcher in which every key of the size table is a path that
    [Parse] accepts, with a size that is not negative, it only reaches
    such watchers: the [Parse] in the loop of [Remove] always succeeds. *)
Theorem Watch_never_panics_and_keeps_sizes_parsed fuel script w :
  (∀ fs, fs ∈ script.*1 → sizes_nonneg fs) → sizes_parse w →
  (∀ msg, Watch Join fuel script w ≠ Panic msg) ∧
  (∀ e w', Watch Join fuel script w = Done (e, w') → sizes_parse w').
Proof.
  intros Hfs Hw.
  pose proof (Watch_keeps Join sizes_parse fuel script w) as H.
  destruct (Watch Join fuel script w) as [[e w']| |] eqn:E.
  - split; [done |]. intros e0 w0 [= <- <-]. apply H; [| | done].
    + intros fs path w1 Hin.
      apply (Update_keeps Join sizes_parse fs); [by apply Hfs |].
      intros n p l wa wb. apply sizes_parse_Update_file.
    + apply sizes_parse_Remove.
  - exfalso. apply H; [| | done].
    + intros fs path w1 Hin.
      apply (Update_keeps Join sizes_parse fs); [by apply Hfs |].
      intros n p l wa wb. apply sizes_parse_Update_file.
    + apply sizes_parse_Remove.
  - done.
Qed.

Lemma counters_cover_Update_file fuel fs path l w w' :
  sizes_exact fs →
  Parse path = Some l → Update Join (S fuel) fs path w = Done w' →
  sizes_parse w ∧ counters_cover w → sizes_parse w' ∧ counters_cover w'.
Proof.
  intros Hfs Hl Hrun [Hp Hc].
  split; [by apply (sizes_parse_Update_file Join fuel fs path l w) |].
  apply (Update_file_inv _ _ _ _ l) in Hrun
    as [(err & _ & Hm & Hs)|(info & Hstat & Hcredit & Hm & Hs)]; [| | done].
  - intros l'. rewrite Hm, Hs. apply Hc.
  - pose proof (Hfs path info Hstat) as Hsize.
    rewrite float64_exact in Hm, Hs by lia.
    intros l'. rewrite Hm, Hs, stored_bytes_insert. specialize (Hc l').
    assert (0 ≤ default 0 (sizes w !! path)) as Hlast.
    { destruct (sizes w !! path) as [v|] eqn:E; simpl; [| lia].
      by destruct (Hp path v E). }
    pose proof (credit_ge _ (fi_Size info) Hlast ltac:(lia)).
    destruct (decide (l = l')) as [<-|Hne].
    + rewrite lookup_insert_eq, decide_True by done. simpl. lia.
    + rewrite lookup_insert_ne by done.
      rewrite decide_False by congruence. lia.
Qed.

(** X5: no counter undercounts what the watcher holds, as long as no
    file is longer than 2^53 bytes. From a watcher in which every counter
    is at least the sum of the stored sizes of the paths with its labels
    (as in the empty one), any sequence of [Update] calls leads to such a
    watcher, whatever the files do in between. *)
Theorem Updates_counters_cover_stored_sizes fuel calls w w' :
  (∀ fs, fs ∈ calls.*1 → sizes_exact fs) →
  sizes_parse w → counters_cover w →
  Updates Join fuel calls w = Done w' →
  ∀ l, stored_bytes l (sizes w') ≤ default 0 (metrics w' !! l).
Proof.
  intros Hfs Hp Hc Hrun.
  assert (sizes_parse w' ∧ counters_cover w') as [_ H]; [| done].
  revert Hrun. intros Hrun. revert Hp Hc.
  assert (sizes_parse w ∧ counters_cover w → sizes_parse w' ∧ counters_cover w')
    as H; [| tauto].
  revert Hrun.
  apply (Updates_Done_preserves
           (fun w w' => sizes_parse w ∧ counters_cover w →
                        sizes_parse w' ∧ counters_cover w')); [tauto | tauto |].
  intros fs n path l w1 w2 Hin. by apply counters_cover_Update_file, Hfs.
Qed.
End WholeRuns.

(** ** The watcher that [New] returns *)

Section NewTheorems.
Variable Join : string → string → string.




End NewTheorems.

(** ** Scanning again *)

Section Rescan.
Variable Join : string → string → string.
Variable fs : FS.

Lemma synced_same w w' q :
  metrics w' = metrics w → sizes w' = sizes w → synced fs w q → synced fs w' q.
Proof. intros Hm Hs H l info. rewrite Hm, Hs. apply H. Qed.

Lemma Update_file_synced fuel path l w w' :
  Parse path = Some l → Update Join (S fuel) fs path w = Done w' →
  synced fs w' path ∧ keeps_synced fs w w'.
Proof.
  intros Hl [(err & Hstat & Hm & Hs)|(info & Hstat & _ & Hm & Hs)]%(Update_file_inv _ _ _ _ l);
    [| | done].
  - split; [| intros q; by apply synced_same].
    intros l' info'. by rewrite Hstat.
  - split.
    + intros l' info'. rewrite Hl, Hstat, Hm, Hs. intros [= <-] [= <-].
      rewrite !lookup_insert_eq. eauto.
    + intros q Hq l' info' Hl' Hstat'. rewrite Hm, Hs.
      destruct (Hq l' info' Hl' Hstat') as [Hsize Hseries]. split.
      * destruct (decide (path = q)) as [<-|Hne].
        -- rewrite lookup_insert_eq. rewrite Hstat in Hstat'. congruence.
        -- by rewrite lookup_insert_ne.
      * destruct (decide (l = l')) as [<-|Hne].
        -- rewrite lookup_insert_eq. eauto.
        -- by rewrite lookup_insert_ne.
Qed.

Lemma Update_keeps_synced fuel path w w' :
  Update Join fuel fs path w = Done w' → keeps_synced fs w w'.
Proof.
  apply (Update_Done_preserves Join (keeps_synced fs) fs).
  - by intros w0 q.
  - intros w1 w2 w3 H12 H23 q Hq. by apply H23, H12.
  - intros n p l w1 w2 Hl Hrun. by apply (Update_file_synced n p l).
Qed.

(** After [Update] has returned, every log file that it has asked for
    is held with its length. *)
Lemma Update_visited_synced fuel path w w' :
  Update Join fuel fs path w = Done w' →
  Forall (synced fs w') (visited Join fuel fs path).
Proof.
  revert path w w'. induction fuel as [|fuel IH]; intros path w w'; [done |].
  destruct (Parse path) as [l|] eqn:Hl.
  - intros [H _]%(Update_file_synced fuel path l); [| done].
    simpl. rewrite Hl. by constructor.
  - simpl. rewrite Hl. destruct (ReadDir fs path) as [infos|err]; [| constructor].
    revert w. induction infos as [|info infos IHinfos]; intros w; simpl.
    + constructor.
    + destruct (Update Join fuel fs _ w) as [w1| |] eqn:E; simpl; [| done..].
      intros H. apply Forall_app. split; [| by apply (IHinfos w1)].
      apply IH in E. eapply Forall_impl; [exact E |]. intros q Hq.
      assert (keeps_synced fs w1 w') as Hkeep; [| by apply Hkeep].
      revert H. apply (for_each_Done_preserves (keeps_synced fs)).
      * by intros w0 q0.
      * intros s1 s2 s3 H12 H23 q0 Hq0. by apply H23, H12.
      * intros a s s' _. apply Update_keeps_synced.
Qed.

(** On log files that are all held with their lengths, [Update] returns
    (when it returns on some watcher) and changes neither the size table
    nor the counters. *)
Lemma Update_on_synced fuel path w0 w0' w :
  Update Join fuel fs path w0 = Done w0' →
  Forall (synced fs w) (visited Join fuel fs path) →
  ∃ w', Update Join fuel fs path w = Done w' ∧
        metrics w' = metrics w ∧ sizes w' = sizes w.
Proof.
  revert path w0 w0' w.
  induction fuel as [|fuel IH]; intros path w0 w0' w; [done |].
  simpl. destruct (Parse path) as [l|] eqn:Hl.
  - intros _ [Hsync _]%Forall_cons.
    destruct (Stat fs path) as [info|err] eqn:Hstat.
    + destruct (Hsync l info Hl Hstat) as [Hsize [c Hc]].
      rewrite Hsize. simpl. rewrite credit_same.
      rewrite counter_Add_Done by lia. simpl. eexists. split; [done |].
      simpl. rewrite Hc. simpl. rewrite Z.add_0_r.
      split; by apply insert_id.
    + eexists. split; [done |]. by destruct (IsNotExist err).
  - destruct (ReadDir fs path) as [infos|err]; [| eauto].
    revert w0 w. induction infos as [|info infos IHinfos]; intros w0 w; simpl.
    + eauto.
    + destruct (Update Join fuel fs _ w0) as [w1| |] eqn:E; simpl; [| done..].
      intros Hrest [Hhere Hlater]%Forall_app.
      destruct (IH _ _ _ w E Hhere) as (wa & -> & Hm & Hs). simpl.
      destruct (IHinfos w1 wa Hrest) as (wb & -> & Hm' & Hs').
      { eapply Forall_impl; [exact Hlater |]. intros q. by apply synced_same. }
      exists wb. split; [done |]. split; congruence.
Qed.

(** X12: scanning again does not count again. When [Update] has returned
    on a path, a second [Update] of the same path on the same file system
    returns as well and changes neither the size table nor any counter,
    whatever the watcher held before the first call. *)
Theorem Update_twice_counts_once fuel path w w1 :
  Update Join fuel fs path w = Done w1 →
  ∃ w2, Update Join fuel fs path w1 = Done w2 ∧
        metrics w2 = metrics w1 ∧ sizes w2 = sizes w1.
Proof.
  intros Hrun. apply (Update_on_synced fuel path w w1 w1 Hrun).
  by apply (Update_visited_synced fuel path w).
Qed.
End Rescan.

(** ** Two removals *)

Lemma Remove_sizes p w k :
  sizes (Remove p w) !! k = if cleans p k then None else sizes w !! k.
Proof.
  unfold Remove, Remove_in_order, cleans.
  destruct (FindStringSubmatch logPodDir p) as [m|]; [| done].
  rewrite loop_sizes. destruct (String.prefix p k) eqn:E.
  - case_decide as H; [done |].
    destruct (sizes w !! k) eqn:Ek; [| done].
    exfalso. apply H. split; [| done]. apply elem_of_keys_of. eauto.
  - rewrite decide_False; [done |]. intros [_ ?]. done.
Qed.

Lemma Remove_metrics_deleted p w k l :
  is_Some (sizes w !! k) → cleans p k = true → Parse k = Some l →
  metrics (Remove p w) !! l = None.
Proof.
  unfold Remove, Remove_in_order, cleans.
  destruct (FindStringSubmatch logPodDir p) as [m|]; [| done].
  intros Hk Hp Hl. apply (loop_metrics_deleted p _ w l k); [| done..].
  by apply elem_of_keys_of.
Qed.

Lemma Remove_metrics_kept p w l :
  (∀ k, is_Some (sizes w !! k) → cleans p k = true → Parse k ≠ Some l) →
  metrics (Remove p w) !! l = metrics w !! l.
Proof.
  unfold Remove, Remove_in_order, cleans.
  destruct (FindStringSubmatch logPodDir p) as [m|]; [| done].
  intros H. apply loop_metrics_kept. intros k Hin. apply H.
  by apply elem_of_keys_of.
Qed.

Lemma Remove_metrics_None p w l :
  metrics w !! l = None → metrics (Remove p w) !! l = None.
Proof.
  unfold Remove, Remove_in_order.
  destruct (FindStringSubmatch logPodDir p) as [m|]; [| done].
  intros H. destruct (metrics (Remove_loop p (keys_of w) w) !! l) eqn:E; [| done].
  apply Remove_loop_metrics_Some in E. congruence.
Qed.

Lemma Remove_logged p w : logged (Remove p w) = logged w.
Proof.
  unfold Remove, Remove_in_order.
  destruct (FindStringSubmatch logPodDir p); [apply loop_logged | done].
Qed.

(** The series of [l] after two removals, in either order. *)
Lemma Remove_Remove_metrics p q w l :
  metrics (Remove p (Remove q w)) !! l =
    if decide (Exists (fun k => (cleans p k || cleans q k = true)
                                ∧ Parse k = Some l) (keys_of w))
    then None else metrics w !! l.
Proof.
  case_decide as H.
  - apply Exists_exists in H as (k & Hin%elem_of_keys_of & Hc & Hl).
    destruct (cleans q k) eqn:Eq.
    + apply Remove_metrics_None. by apply (Remove_metrics_deleted q w k).
    + rewrite orb_false_r in Hc.
      apply (Remove_metrics_deleted p _ k); [| done..].
      by rewrite Remove_sizes, Eq.
  - assert (∀ k, is_Some (sizes w !! k) → Parse k = Some l →
              cleans p k = false ∧ cleans q k = false) as Hno.
    { intros k Hk Hl.
      destruct (cleans p k) eqn:Ep, (cleans q k) eqn:Eq; try done;
        exfalso; apply H, Exists_exists; exists k;
        (split; [by apply elem_of_keys_of |]); by rewrite Ep, Eq. }
    rewrite Remove_metrics_kept.
    + apply Remove_metrics_kept. intros k Hk Hq Hl.
      destruct (Hno k Hk Hl). congruence.
    + intros k Hk Hp Hl. rewrite Remove_sizes in Hk.
      destruct (cleans q k); [by destruct Hk |].
      destruct (Hno k Hk Hl). congruence.
Qed.

(** X13: removals commute. Two [Remove] calls, for two pod directories
    or for any two paths, leave the same watcher in either order. *)
Theorem Remove_commutes p q w :
  Remove p (Remove q w) = Remove q (Remove p w).
Proof.
  apply Watcher_eq.
  - apply map_eq. intros l. rewrite !Remove_Remove_metrics.
    repeat case_decide; try done; exfalso.
    + match goal with H : ¬ _ |- _ => apply H end.
      eapply Exists_impl; [eassumption |].
      intros k [Hc Hl]. split; [| done]. by rewrite orb_comm.
    + match goal with H : ¬ _ |- _ => apply H end.
      eapply Exists_impl; [eassumption |].
      intros k [Hc Hl]. split; [| done]. by rewrite orb_comm.
  - apply map_eq. intros k. rewrite !Remove_sizes.
    by destruct (cleans p k), (cleans q k).
  - by rewrite !Remove_logged.
Qed.

(** ** The further statements at concrete inputs *)

Lemma sizes_parse_New_state : sizes_parse New_state.
Proof.
  intros k v H. unfold New_state in H. cbn [sizes] in H.
  by rewrite lookup_empty in H.
Qed.

Lemma Parse_labels_well_formed_witness : labels_ok log0_labels.
Proof.
  apply (Parse_labels_well_formed log0 log0_labels).
  vm_compute. reflexivity.
Defined.

Lemma Parse_append_stable_witness :
  Parse (log0 +:+ ".20230101.gz") = Some log0_labels.
Proof.
  apply (Parse_append_stable log0 ".20230101.gz" log0_labels).
  vm_compute. reflexivity.
Defined.

Lemma Remove_ignores_container_directory_witness :
  Remove (pod_dir +:+ "/" +:+ "c") w_hello = w_hello.
Proof.
  apply (Remove_ignores_container_directory pod_dir "c" w_hello).
  reflexivity.
Defined.

Lemma Update_after_Remove_counts_afresh_witness :
  ∃ w', Update join_slash 1 fs_truncated log0 (Remove pod_dir w_hello) = Done w' ∧
        metrics w' !! log0_labels = Some 2 ∧ sizes w' !! log0 = Some 2.
Proof.
  apply (Update_after_Remove_counts_afresh join_slash 0 fs_truncated pod_dir log0
           log0_labels 6 (mkFileInfo log0 2) w_hello).
  - eexists. vm_compute. reflexivity.
  - vm_compute. reflexivity.
  - reflexivity.
  - vm_compute. reflexivity.
  - reflexivity.
  - simpl. lia.
Defined.

Lemma Updates_keep_size_entries_witness :
  Updates join_slash 1 [(fs_failing ErrNotExist, log0)] w_hello = Done w_hello ∧
  is_Some (sizes w_hello !! log0).
Proof.
  assert (Updates join_slash 1 [(fs_failing ErrNotExist, log0)] w_hello
          = Done w_hello) as Hrun by (vm_compute; reflexivity).
  split; [exact Hrun |].
  apply (Updates_keep_size_entries join_slash 1
           [(fs_failing ErrNotExist, log0)] w_hello w_hello Hrun).
  eexists. vm_compute. reflexivity.
Defined.

Lemma Watch_never_panics_and_keeps_sizes_parsed_witness :
  ∃ e w', Watch join_slash 4
            [(fs_hello, Val (fsnotify.mkEvent pods fsnotify.Create));
             (fs_truncated, Val (fsnotify.mkEvent log0 fsnotify.Write));
             (fs_truncated, Val (fsnotify.mkEvent pod_dir fsnotify.Remove))]
            New_state = Done (e, w') ∧ sizes_parse w'.
Proof.
  do 2 eexists. split; [vm_compute; reflexivity |].
  eapply (Watch_never_panics_and_keeps_sizes_parsed join_slash 4
           [(fs_hello, Val (fsnotify.mkEvent pods fsnotify.Create));
            (fs_truncated, Val (fsnotify.mkEvent log0 fsnotify.Write));
            (fs_truncated, Val (fsnotify.mkEvent pod_dir fsnotify.Remove))]
           New_state).
  - intros fs Hin. apply list_elem_of_In in Hin.
    destruct Hin as [<-|[<-|[<-|[]]]]; apply fs_of_sizes_nonneg;
      repeat constructor; simpl; lia.
  - exact sizes_parse_New_state.
  - vm_compute. reflexivity.
Defined.

Lemma Updates_counters_cover_stored_sizes_witness :
  ∃ w', Updates join_slash 4 [(fs_hello, pods); (fs_truncated, log0)] New_state
        = Done w' ∧
        ∀ l, stored_bytes l (sizes w') ≤ default 0 (metrics w' !! l).
Proof.
  eexists. split; [vm_compute; reflexivity |].
  eapply (Updates_counters_cover_stored_sizes join_slash 4
            [(fs_hello, pods); (fs_truncated, log0)] New_state).
  - intros fs Hin. apply list_elem_of_In in Hin.
    destruct Hin as [<-|[<-|[]]]; apply fs_of_sizes_exact;
      repeat constructor; simpl; lia.
  - exact sizes_parse_New_state.
  - intros l. unfold New_state. cbn [metrics sizes].
    rewrite lookup_empty, stored_bytes_empty. simpl. lia.
  - vm_compute. reflexivity.
Defined.


Lemma Update_twice_counts_once_witness :
  ∃ w1 w2, Update join_slash 4 fs_hello pods New_state = Done w1 ∧
           Update join_slash 4 fs_hello pods w1 = Done w2 ∧
           metrics w2 = metrics w1 ∧ sizes w2 = sizes w1.
Proof.
  eexists.
  assert (Update join_slash 4 fs_hello pods New_state = Done _) as Hrun
    by (vm_compute; reflexivity).
  destruct (Update_twice_counts_once join_slash fs_hello 4 pods New_state _ Hrun)
    as (w2 & Hrun2 & Hm & Hs).
  exists w2. split_and!; [exact Hrun | exact Hrun2 | exact Hm | exact Hs].
Defined.
